(** * gfs.py: a toy Google File System (master, chunkservers, client)

    Shallow embedding of [src/gfs.py] and the properties of its
    metadata/placement subsystem.

    The Python program keeps all of its state in three mutable objects (the
    master, the chunkservers it owns, the files below [/tmp/gfs/chunks]) and
    reads two ambient sources ([uuid.uuid1()] and [time.time()]).  The
    embedding threads one [World] through a state-and-exception monad: an
    exception aborts the rest of the call but keeps every mutation done
    before it, as in Python.

    Embedded: [GFSChunkserver], [GFSMaster] (all but [dump_metadata]) and
    [GFSClient].  The test script [main] is not. *)

From stdpp Require Import gmap strings list fin_maps pretty.
From Stdlib.Strings Require Import Byte Ascii.

Local Open Scope string_scope.
Local Open Scope list_scope.
Local Open Scope nat_scope.

(** ** Values *)

(** A chunk identifier is what [uuid.uuid1()] returns.  Only the identity of
    the token matters to the program; it is the number of the call that made
    it.  (CPython's [uuid1] bumps its timestamp on every call of a process,
    so two calls never return the same token.) *)
Abbreviation uuid := nat (only parsing).

(** A Python 2 [str] payload. *)
Abbreviation bytes := (list byte) (only parsing).

(** The exceptions the program raises itself ([Exception] with a message) and
    the built-in ones its dictionary, list, arithmetic and file accesses can
    raise. *)
Inductive pykey :=
| KFile (filename : string)
| KUuid (chunkuuid : uuid)
| KLoc (chunkloc : nat).

Inductive exn :=
| Exception (msg : string)
| KeyError (k : pykey)
| IndexError
| TypeError
| ValueError
| ZeroDivisionError
| IOError (path : string).

Inductive result (A : Type) :=
| Ok (a : A)
| Raise (e : exn).
Arguments Ok {A} a.
Arguments Raise {A} e.

(** ** Objects *)

Record GFSChunkserver := mkChunkserver {
  cs_chunkloc : nat;
  cs_chunktable : gmap uuid string;
  local_filesystem_root : string
}.

Record GFSMaster := mkMaster {
  num_chunkservers : nat;
  max_chunkservers : nat;
  max_chunksperfile : nat;
  chunksize : nat;
  chunkrobin : nat;
  filetable : gmap string (list uuid);
  chunktable : gmap uuid nat;
  chunkservers : gmap nat GFSChunkserver
}.

(** Everything a call can read or change.  [time_src] is the sequence of
    values [repr(time.time())] will return, [time_pos] the number of calls
    made so far: the clock is arbitrary and may repeat itself. *)
Record World := mkWorld {
  master : GFSMaster;
  fs : gmap string bytes;
  uuid_clock : uuid;
  time_src : nat → string;
  time_pos : nat;
  stdout : list string
}.

Definition set_master (m : GFSMaster) (w : World) : World :=
  mkWorld m (fs w) (uuid_clock w) (time_src w) (time_pos w) (stdout w).
Definition set_fs (s : gmap string bytes) (w : World) : World :=
  mkWorld (master w) s (uuid_clock w) (time_src w) (time_pos w) (stdout w).

Definition set_chunkrobin (r : nat) (m : GFSMaster) : GFSMaster :=
  mkMaster (num_chunkservers m) (max_chunkservers m) (max_chunksperfile m)
    (chunksize m) r (filetable m) (chunktable m) (chunkservers m).
Definition set_filetable (t : gmap string (list uuid)) (m : GFSMaster) : GFSMaster :=
  mkMaster (num_chunkservers m) (max_chunkservers m) (max_chunksperfile m)
    (chunksize m) (chunkrobin m) t (chunktable m) (chunkservers m).
Definition set_chunktable (t : gmap uuid nat) (m : GFSMaster) : GFSMaster :=
  mkMaster (num_chunkservers m) (max_chunkservers m) (max_chunksperfile m)
    (chunksize m) (chunkrobin m) (filetable m) t (chunkservers m).
Definition set_chunkservers (t : gmap nat GFSChunkserver) (m : GFSMaster) : GFSMaster :=
  mkMaster (num_chunkservers m) (max_chunkservers m) (max_chunksperfile m)
    (chunksize m) (chunkrobin m) (filetable m) (chunktable m) t.

(** ** The monad *)

Definition M (A : Type) : Type := World → result A * World.

Definition ret {A} (a : A) : M A := λ w, (Ok a, w).
Definition raise {A} (e : exn) : M A := λ w, (Raise e, w).
Definition bind {A B} (c : M A) (k : A → M B) : M B :=
  λ w, match c w with
       | (Ok a, w') => k a w'
       | (Raise e, w') => (Raise e, w')
       end.

Declare Scope py_scope.
Delimit Scope py_scope with py.
Notation "x <- c ;; k" := (bind c (λ x, k))
  (at level 100, c at next level, right associativity) : py_scope.
Notation "c ;; k" := (bind c (λ _, k))
  (at level 100, right associativity) : py_scope.
Local Open Scope py_scope.

Definition get_master : M GFSMaster := λ w, (Ok (master w), w).
Definition modify_master (f : GFSMaster → GFSMaster) : M unit :=
  λ w, (Ok tt, set_master (f (master w)) w).

(** [for x in l: body(x)] *)
Fixpoint for_each {A} (l : list A) (body : A → M unit) : M unit :=
  match l with
  | [] => ret tt
  | x :: l' => body x;; for_each l' body
  end.

(** ** Built-ins *)

(** [d[k]] on a dictionary. *)
Definition getitem {K V} `{Countable K} (d : gmap K V) (k : K) (name : pykey) : M V :=
  match d !! k with
  | Some v => ret v
  | None => raise (KeyError name)
  end.

(** [l[i]] on a list, [i >= 0]. *)
Definition list_getitem {A} (l : list A) (i : nat) : M A :=
  match l !! i with
  | Some v => ret v
  | None => raise IndexError
  end.

(** [data[x:y]] for [0 <= x <= y]: the bounds are clipped to the length. *)
Definition slice {A} (data : list A) (x y : nat) : list A :=
  take (y - x) (drop x data).

(** [range(start, stop, step)] for a positive step; [fuel] bounds the number
    of elements. *)
Fixpoint range_go (fuel x stop step : nat) : list nat :=
  match fuel with
  | 0 => []
  | S fuel' => if decide (x < stop) then x :: range_go fuel' (x + step) stop step else []
  end.

(** [range(start, stop, step)]: a zero step is a [ValueError]. *)
Definition range3 (start stop step : nat) : M (list nat) :=
  if decide (step = 0) then raise ValueError
  else ret (range_go stop start stop step).

(** [reduce(f, l)] without an initial value: a [TypeError] on an empty list. *)
Definition reduce {A} (f : A → A → A) (l : list A) : M A :=
  match l with
  | [] => raise TypeError
  | x :: l' => ret (foldl f x l')
  end.

(** [a // b] and [a % b] on non-negative integers. *)
Definition floordiv (a b : nat) : M nat :=
  if decide (b = 0) then raise ZeroDivisionError else ret (a / b).
Definition modulo (a b : nat) : M nat :=
  if decide (b = 0) then raise ZeroDivisionError else ret (a mod b).

(** [uuid.uuid1()] *)
Definition uuid1 : M uuid :=
  λ w, (Ok (uuid_clock w),
        mkWorld (master w) (fs w) (S (uuid_clock w)) (time_src w) (time_pos w) (stdout w)).

(** [repr(time.time())] *)
Definition repr_time : M string :=
  λ w, (Ok (time_src w (time_pos w)),
        mkWorld (master w) (fs w) (uuid_clock w) (time_src w) (S (time_pos w)) (stdout w)).

(** [print line] *)
Definition print (line : string) : M unit :=
  λ w, (Ok tt,
        mkWorld (master w) (fs w) (uuid_clock w) (time_src w) (time_pos w) (stdout w ++ [line])).

(** [with open(path, "w") as f: f.write(chunk)].  The directories are made by
    the chunkserver's constructor, so opening for writing succeeds. *)
Definition file_write (path : string) (chunk : bytes) : M unit :=
  λ w, (Ok tt, set_fs (<[path := chunk]> (fs w)) w).

(** [with open(path, "r") as f: data = f.read()] *)
Definition file_read (path : string) : M bytes :=
  λ w, match fs w !! path with
       | Some data => (Ok data, w)
       | None => (Raise (IOError path), w)
       end.

(** ** class GFSChunkserver *)

Module Chunkserver.

(** [__init__]; the directory bootstrap has no effect on file contents. *)
Definition init (chunkloc : nat) : GFSChunkserver :=
  mkChunkserver chunkloc ∅ ("/tmp/gfs/chunks/" +:+ pretty chunkloc).

(** [str(chunkuuid)] is rendered as the decimal number of the token. *)
Definition chunk_filename (self : GFSChunkserver) (chunkuuid : uuid) : string :=
  local_filesystem_root self +:+ "/" +:+ pretty chunkuuid +:+ ".gfs".

(** The chunkserver objects live in the master's [chunkservers] dictionary
    and nowhere else; [loc] is the key [self] was fetched under, where the
    mutated object is found again. *)
Definition write (loc : nat) (self : GFSChunkserver) (chunkuuid : uuid) (chunk : bytes) : M unit :=
  let local_filename := chunk_filename self chunkuuid in
  file_write local_filename chunk;;
  modify_master (λ m,
    set_chunkservers
      (<[loc := mkChunkserver (cs_chunkloc self)
                  (<[chunkuuid := local_filename]> (cs_chunktable self))
                  (local_filesystem_root self)]> (chunkservers m)) m).

Definition read (self : GFSChunkserver) (chunkuuid : uuid) : M bytes :=
  let local_filename := chunk_filename self chunkuuid in
  file_read local_filename.

End Chunkserver.

(** ** class GFSMaster *)

Module Master.

Fixpoint init_chunkservers (n : nat) : gmap nat GFSChunkserver :=
  match n with
  | 0 => ∅
  | S i => <[i := Chunkserver.init i]> (init_chunkservers i)
  end.

Definition init : GFSMaster :=
  let self := mkMaster 5 10 100 10 0 ∅ ∅ ∅ in
  set_chunkservers (init_chunkservers (num_chunkservers self)) self.

(** Returns the dictionary object itself: a later [chunkservers[loc]] sees
    the chunkservers as they are then. *)
Definition get_chunkservers : M (gmap nat GFSChunkserver) :=
  m <- get_master;; ret (chunkservers m).

(** The body of [for i in range(0, num_chunks)], [chunkuuids] being the list
    built so far. *)
Fixpoint alloc_chunks_loop (num_chunks : nat) (chunkuuids : list uuid) : M (list uuid) :=
  match num_chunks with
  | 0 => ret chunkuuids
  | S n =>
      chunkuuid <- uuid1;;
      m <- get_master;;
      let chunkloc := chunkrobin m in
      modify_master (λ m, set_chunktable (<[chunkuuid := chunkloc]> (chunktable m)) m);;
      let chunkuuids := chunkuuids ++ [chunkuuid] in
      r <- modulo (chunkrobin m + 1) (num_chunkservers m);;
      modify_master (set_chunkrobin r);;
      alloc_chunks_loop n chunkuuids
  end.

Definition alloc_chunks (num_chunks : nat) : M (list uuid) :=
  alloc_chunks_loop num_chunks [].

Definition alloc (filename : string) (num_chunks : nat) : M (list uuid) :=
  chunkuuids <- alloc_chunks num_chunks;;
  modify_master (λ m, set_filetable (<[filename := chunkuuids]> (filetable m)) m);;
  ret chunkuuids.

(** [chunkuuids.extend(...)] changes the list object bound to [filename] in
    the file table.  No list is ever bound to two names ([alloc] binds a new
    list, [delete] moves one), so extending it is rebinding [filename]. *)
Definition alloc_append (filename : string) (num_append_chunks : nat) : M (list uuid) :=
  m <- get_master;;
  chunkuuids <- getitem (filetable m) filename (KFile filename);;
  append_chunkuuids <- alloc_chunks num_append_chunks;;
  modify_master (λ m,
    set_filetable (<[filename := chunkuuids ++ append_chunkuuids]> (filetable m)) m);;
  ret append_chunkuuids.

Definition get_chunkloc (chunkuuid : uuid) : M nat :=
  m <- get_master;; getitem (chunktable m) chunkuuid (KUuid chunkuuid).

Definition get_chunkuuids (filename : string) : M (list uuid) :=
  m <- get_master;; getitem (filetable m) filename (KFile filename).

Definition exists_ (filename : string) : M bool :=
  m <- get_master;; ret (bool_decide (is_Some (filetable m !! filename))).

Definition delete (filename : string) : M unit :=
  m <- get_master;;
  chunkuuids <- getitem (filetable m) filename (KFile filename);;
  modify_master (λ m, set_filetable (base.delete filename (filetable m)) m);;
  timestamp <- repr_time;;
  let deleted_filename := "/hidden/deleted/" +:+ timestamp +:+ filename in
  modify_master (λ m, set_filetable (<[deleted_filename := chunkuuids]> (filetable m)) m);;
  print ("deleted file: " +:+ filename +:+ " renamed to " +:+
         deleted_filename +:+ " ready for gc").

End Master.

(** ** class GFSClient *)

Module Client.

Definition num_chunks (size : nat) : M nat :=
  m <- get_master;;
  q <- floordiv size (chunksize m);;
  r <- modulo size (chunksize m);;
  ret (q + (if decide (0 < r) then 1 else 0)).

(** One turn of [for i in range(0, len(chunkuuids))]. *)
Definition write_chunk (chunkuuids : list uuid) (chunks : list bytes) (i : nat) : M unit :=
  chunkuuid <- list_getitem chunkuuids i;;
  chunkloc <- Master.get_chunkloc chunkuuid;;
  chunkservers <- Master.get_chunkservers;;
  chunkserver <- getitem chunkservers chunkloc (KLoc chunkloc);;
  chunk <- list_getitem chunks i;;
  Chunkserver.write chunkloc chunkserver chunkuuid chunk.

Definition write_chunks (chunkuuids : list uuid) (data : bytes) : M unit :=
  m <- get_master;;
  xs <- range3 0 (length data) (chunksize m);;
  let chunks := (λ x, slice data x (x + chunksize m)) <$> xs in
  for_each (seq 0 (length chunkuuids)) (write_chunk chunkuuids chunks).

(** The list [chunks] of [write_chunks], for a chunk size that is not zero. *)
Definition split_chunks (data : bytes) (chunksize : nat) : list bytes :=
  (λ x, slice data x (x + chunksize)) <$> range_go (length data) 0 (length data) chunksize.

Definition exists_ (filename : string) : M bool :=
  Master.exists_ filename.

Definition delete (filename : string) : M unit :=
  Master.delete filename.

Definition write (filename : string) (data : bytes) : M unit :=
  e <- exists_ filename;;
  (if e then delete filename else ret tt);;
  num_chunks <- num_chunks (length data);;
  chunkuuids <- Master.alloc filename num_chunks;;
  write_chunks chunkuuids data.

Definition write_append (filename : string) (data : bytes) : M unit :=
  e <- exists_ filename;;
  (if negb e
   then raise (Exception ("append error, file does not exist: " +:+ filename))
   else ret tt);;
  num_append_chunks <- num_chunks (length data);;
  append_chunkuuids <- Master.alloc_append filename num_append_chunks;;
  write_chunks append_chunkuuids data.

(** [for chunkuuid in chunkuuids], [chunks] being the list built so far. *)
Fixpoint read_loop (chunkuuids : list uuid) (chunks : list bytes) : M (list bytes) :=
  match chunkuuids with
  | [] => ret chunks
  | chunkuuid :: rest =>
      chunkloc <- Master.get_chunkloc chunkuuid;;
      chunkservers <- Master.get_chunkservers;;
      chunkserver <- getitem chunkservers chunkloc (KLoc chunkloc);;
      chunk <- Chunkserver.read chunkserver chunkuuid;;
      read_loop rest (chunks ++ [chunk])
  end.

Definition read (filename : string) : M bytes :=
  e <- exists_ filename;;
  (if negb e
   then raise (Exception ("read error, file does not exist: " +:+ filename))
   else ret tt);;
  chunkuuids <- Master.get_chunkuuids filename;;
  chunks <- read_loop chunkuuids [];;
  reduce (λ x y, x ++ y) chunks.

End Client.

(** ** Start and reachable worlds *)

(** [master = GFSMaster(); client = GFSClient(master)].  The chunk directory
    survives the process, so the files found at start are arbitrary, and so
    are the clock and the first token. *)
Definition init_world (files : gmap string bytes) (first_uuid : uuid)
    (clock : nat → string) : World :=
  mkWorld Master.init files first_uuid clock 0 [].

(** The calls a user of the module makes: the client's methods, and the
    master's allocation and deletion methods the client is built on. *)
Inductive call :=
| CWrite (filename : string) (data : bytes)
| CWriteAppend (filename : string) (data : bytes)
| CRead (filename : string)
| CExists (filename : string)
| CDelete (filename : string)
| MAlloc (filename : string) (num_chunks : nat)
| MAllocAppend (filename : string) (num_append_chunks : nat)
| MDelete (filename : string).

(** The world a call leaves behind, whether it returned or raised. *)
Definition exec (c : call) (w : World) : World :=
  match c with
  | CWrite f d => (Client.write f d w).2
  | CWriteAppend f d => (Client.write_append f d w).2
  | CRead f => (Client.read f w).2
  | CExists f => (Client.exists_ f w).2
  | CDelete f => (Client.delete f w).2
  | MAlloc f n => (Master.alloc f n w).2
  | MAllocAppend f n => (Master.alloc_append f n w).2
  | MDelete f => (Master.delete f w).2
  end.

Definition run_calls (cs : list call) (w : World) : World :=
  foldl (λ w c, exec c w) w cs.

Inductive reachable : World → Prop :=
| reachable_init files first_uuid clock :
    reachable (init_world files first_uuid clock)
| reachable_exec c w :
    reachable w → reachable (exec c w).

(** ** Notions the properties are stated with *)

(** The file a chunk's bytes are in: the master places the chunk, the
    chunkserver at that place names the file. *)
Definition chunk_path (m : GFSMaster) (chunkuuid : uuid) : option string :=
  match chunktable m !! chunkuuid with
  | Some chunkloc =>
      match chunkservers m !! chunkloc with
      | Some chunkserver => Some (Chunkserver.chunk_filename chunkserver chunkuuid)
      | None => None
      end
  | None => None
  end.

(** The bytes stored for a chunk, if any. *)
Definition stored (w : World) (chunkuuid : uuid) : option bytes :=
  match chunk_path (master w) chunkuuid with
  | Some path => fs w !! path
  | None => None
  end.

(** [ceil(L / C)] as the spec has it: the least number of chunks of [C]
    bytes that hold [L] bytes. *)
Definition ceil_div (L C : nat) : nat := (L + C - 1) / C.

(** The deleted-namespace key [Master.delete] renames a file to. *)
Definition deleted_key (timestamp filename : string) : string :=
  "/hidden/deleted/" +:+ timestamp +:+ filename.

Fixpoint has_char (c : ascii) (s : string) : bool :=
  match s with
  | EmptyString => false
  | String c' s' => bool_decide (c = c') || has_char c s'
  end.

Definition is_digit (c : ascii) : bool :=
  bool_decide (c ∈ ["0"; "1"; "2"; "3"; "4"; "5"; "6"; "7"; "8"; "9"]%char).

(** What holds of every world reached from a start whose first token is
    [first]. *)
Record Inv (first : uuid) (w : World) : Prop := mkInv {
  inv_servers : num_chunkservers (master w) = 5;
  inv_chunksize : chunksize (master w) = 10;
  inv_first : first ≤ uuid_clock w;
  inv_robin : chunkrobin (master w) = (uuid_clock w - first) mod 5;
  inv_chunktable : ∀ u,
    chunktable (master w) !! u =
      if decide (first ≤ u < uuid_clock w) then Some ((u - first) mod 5) else None;
  inv_pool : ∀ loc, loc < 5 →
    ∃ cs, chunkservers (master w) !! loc = Some cs;
  inv_files : ∀ f l u,
    filetable (master w) !! f = Some l → u ∈ l → first ≤ u < uuid_clock w;
  inv_nodup : ∀ f l, filetable (master w) !! f = Some l → NoDup l;
  inv_disjoint : ∀ f g lf lg u,
    f ≠ g → filetable (master w) !! f = Some lf →
    filetable (master w) !! g = Some lg → u ∈ lf → u ∉ lg
}.

(** The world after [n] chunks were allocated in [w], [ct] being the chunk
    table they were entered in. *)
Definition after_alloc (ct : gmap uuid nat) (n : nat) (w : World) : World :=
  mkWorld
    (set_chunkrobin ((chunkrobin (master w) + n) mod num_chunkservers (master w))
       (set_chunktable ct (master w)))
    (fs w) (uuid_clock w + n) (time_src w) (time_pos w) (stdout w).

(** The world after the files [files] were written in [w] by chunkservers
    that are now [pool]. *)
Definition after_store (files : gmap string bytes) (pool : gmap nat GFSChunkserver)
    (w : World) : World :=
  set_fs files (set_master (set_chunkservers pool (master w)) w).

(** Two pools name their chunk files alike. *)
Definition same_roots (pool pool' : gmap nat GFSChunkserver) : Prop :=
  ∀ loc, local_filesystem_root <$> pool' !! loc = local_filesystem_root <$> pool !! loc.

(** The world after [filename], bound to [chunkuuids], was deleted in [w]. *)
Definition after_delete (filename : string) (chunkuuids : list uuid) (w : World) : World :=
  let deleted_filename := deleted_key (time_src w (time_pos w)) filename in
  mkWorld
    (set_filetable
       (<[deleted_filename := chunkuuids]> (delete filename (filetable (master w))))
       (master w))
    (fs w) (uuid_clock w) (time_src w) (S (time_pos w))
    (stdout w ++ ["deleted file: " +:+ filename +:+ " renamed to " +:+
                  deleted_filename +:+ " ready for gc"]).

(** The world after [filename] was bound to [chunkuuids] in [w]. *)
Definition bind_file (filename : string) (chunkuuids : list uuid) (w : World) : World :=
  set_master (set_filetable (<[filename := chunkuuids]> (filetable (master w))) (master w)) w.

(** The world after the [if self.exists(filename): self.delete(filename)]
    that opens [Client.write]. *)
Definition delete_if_exists (filename : string) (w : World) : World :=
  match filetable (master w) !! filename with
  | Some chunkuuids => after_delete filename chunkuuids w
  | None => w
  end.

(** A call that leaves the world as it found it. *)
Definition read_only {A} (c : M A) : Prop := ∀ w, (c w).2 = w.

(** A start to run examples from: an empty chunk directory and a clock that
    stands still. *)
Definition sample_clock : nat → string := λ _, "1700000000.0".
Definition sample_world : World := init_world ∅ 0 sample_clock.
Definition sample_data (s : string) : bytes := String.list_byte_of_string s.

(** The number of chunks a call asks the master to allocate in [w]: what
    [alloc] and [alloc_append] are called with, by the user or by the client
    for a payload; none when the call stops before it allocates. *)
Definition chunks_allocated (c : call) (w : World) : nat :=
  let present f := bool_decide (is_Some (filetable (master w) !! f)) in
  match c with
  | CWrite f d => ceil_div (length d) (chunksize (master w))
  | CWriteAppend f d =>
      if present f then ceil_div (length d) (chunksize (master w)) else 0
  | MAlloc f n => n
  | MAllocAppend f n => if present f then n else 0
  | CRead _ | CExists _ | CDelete _ | MDelete _ => 0
  end.

(** The chunks allocated by a sequence of calls that starts in [w]. *)
Fixpoint allocated_by (cs : list call) (w : World) : nat :=
  match cs with
  | [] => 0
  | c :: cs' => chunks_allocated c w + allocated_by cs' (exec c w)
  end.

(** The bytes of a file: the payloads stored for its chunks, in sequence
    order, when every one of them is stored. *)
Definition content (w : World) (filename : string) : option bytes :=
  match filetable (master w) !! filename with
  | Some chunkuuids =>
      match mapM (stored w) chunkuuids with
      | Some chunks => Some (concat chunks)
      | None => None
      end
  | None => None
  end.

(** The chunkservers agree with the master and with the disk: the
    chunkserver under key [loc] is the one made for [loc], and it lists a
    chunk only if the master placed the chunk on it, under the name of the
    chunk's file, which exists. *)
Definition pool_consistent (w : World) : Prop :=
  ∀ loc cs, chunkservers (master w) !! loc = Some cs →
    loc < num_chunkservers (master w) ∧
    cs_chunkloc cs = loc ∧
    local_filesystem_root cs = "/tmp/gfs/chunks/" +:+ pretty loc ∧
    ∀ u p, cs_chunktable cs !! u = Some p →
      chunktable (master w) !! u = Some loc ∧
      p = Chunkserver.chunk_filename cs u ∧
      is_Some (fs w !! p).

(** The number of chunks the master has placed on server [loc]. *)
Definition load (m : GFSMaster) (loc : nat) : nat :=
  length (filter (λ entry, entry.2 = loc) (map_to_list (chunktable m))).


(** * Proofs *)

Local Arguments Nat.modulo : simpl never.
Local Arguments Nat.div : simpl never.

(** ** Chunk file names: one file per token *)

Section strings.
Implicit Types (s t a b : string) (c : ascii).

Lemma has_char_app c s t :
  has_char c (s +:+ t) = has_char c s || has_char c t.
Proof.
  induction s as [|c' s IH]; simpl; [done|].
  by rewrite IH, orb_assoc.
Qed.

(** A separator that occurs in neither tail cuts a string at one place. *)
Lemma split_at_last c a b s t :
  has_char c s = false → has_char c t = false →
  a +:+ String c s = b +:+ String c t → a = b ∧ s = t.
Proof.
  intros Hs Ht. revert b. induction a as [|x a IH]; intros [|y b] Heq; simpl in Heq.
  - by injection Heq as ->.
  - injection Heq as -> ->.
    rewrite has_char_app in Hs; simpl in Hs.
    rewrite bool_decide_true, orb_true_r in Hs by done. done.
  - injection Heq as -> <-.
    rewrite has_char_app in Ht; simpl in Ht.
    rewrite bool_decide_true, orb_true_r in Ht by done. done.
  - injection Heq as -> Heq. destruct (IH _ Heq) as [-> ->]. done.
Qed.

Lemma pretty_N_char_digit x : is_digit (pretty_N_char x) = true.
Proof. unfold pretty_N_char. by repeat case_match. Qed.

Lemma has_char_pretty_N_go c x s :
  is_digit c = false → has_char c (pretty_N_go x s) = has_char c s.
Proof.
  intros Hc. revert s. induction (N.lt_wf_0 x) as [x _ IH]; intros s.
  destruct (decide (x = 0)%N) as [->|Hx]; [by rewrite pretty_N_go_0|].
  rewrite pretty_N_go_step by lia.
  rewrite IH by (apply N.div_lt; lia). simpl.
  rewrite bool_decide_false; [done|].
  intros ->. by rewrite pretty_N_char_digit in Hc.
Qed.

Lemma has_char_pretty_nat c (n : nat) :
  is_digit c = false → has_char c (pretty n) = false.
Proof.
  intros Hc. unfold pretty, pretty_nat, pretty, pretty_N.
  case_decide.
  - simpl. rewrite bool_decide_false; [done|]. by intros ->.
  - by rewrite has_char_pretty_N_go.
Qed.

End strings.

Lemma chunk_filename_inj cs cs' (u u' : nat) :
  Chunkserver.chunk_filename cs u = Chunkserver.chunk_filename cs' u' → u = u'.
Proof.
  unfold Chunkserver.chunk_filename. intros Heq.
  apply (split_at_last "/") in Heq as [_ Heq].
  - change (pretty u +:+ String "." "gfs" = pretty u' +:+ String "." "gfs") in Heq.
    apply (split_at_last ".") in Heq as [Heq _]; [|done..].
    by apply (inj pretty).
  - rewrite has_char_app, has_char_pretty_nat; done.
  - rewrite has_char_app, has_char_pretty_nat; done.
Qed.

(** ** Splitting a payload *)

Lemma range_go_lookup fuel x stop step i :
  0 < step → stop - x ≤ fuel →
  range_go fuel x stop step !! i =
    if decide (x + i * step < stop) then Some (x + i * step) else None.
Proof.
  intros Hstep. revert x i. induction fuel as [|fuel IH]; intros x i Hfuel; simpl.
  - rewrite decide_False by lia. done.
  - destruct (decide (x < stop)) as [Hlt|Hge].
    + destruct i as [|i]; simpl.
      * rewrite decide_True by lia. f_equal; lia.
      * rewrite IH by lia.
        replace (x + step + i * step) with (x + (step + i * step)) by lia.
        done.
    + rewrite decide_False by lia. done.
Qed.

Lemma div_mod_count stop step i :
  0 < step →
  i * step < stop ↔ i < stop / step + (if decide (0 < stop mod step) then 1 else 0).
Proof.
  intros Hstep.
  pose proof (Nat.div_mod stop step ltac:(lia)) as Hdm.
  pose proof (Nat.mod_upper_bound stop step ltac:(lia)) as Hub.
  set (q := stop / step) in *. set (r := stop mod step) in *.
  destruct (decide (0 < r)); nia.
Qed.

Lemma length_range_go stop step :
  0 < step →
  length (range_go stop 0 stop step) =
    stop / step + (if decide (0 < stop mod step) then 1 else 0).
Proof.
  intros Hstep.
  set (l := range_go stop 0 stop step).
  set (n := stop / step + _).
  assert (∀ i, i < length l ↔ i < n) as Hiff.
  { intros i. rewrite <-lookup_lt_is_Some. unfold l.
    rewrite range_go_lookup by lia. simpl.
    unfold n. rewrite <-div_mod_count by done.
    case_decide; split; intros H'; try done; try lia; by destruct H'. }
  apply Nat.le_antisymm.
  - apply Nat.nlt_ge. intros Hlt. apply Hiff in Hlt. lia.
  - apply Nat.nlt_ge. intros Hlt. apply Hiff in Hlt. lia.
Qed.

Lemma ceil_div_floor L C :
  0 < C → ceil_div L C = L / C + (if decide (0 < L mod C) then 1 else 0).
Proof.
  intros HC. unfold ceil_div.
  pose proof (Nat.div_mod L C ltac:(lia)) as Hdm.
  pose proof (Nat.mod_upper_bound L C ltac:(lia)) as Hub.
  set (q := L / C) in *. set (r := L mod C) in *.
  symmetry. destruct (decide (0 < r)).
  - apply (Nat.div_unique _ _ _ (r - 1)); nia.
  - apply (Nat.div_unique _ _ _ (C - 1)); nia.
Qed.

(** [ceil_div L C] is the least [k] with [L <= k * C]. *)
Lemma ceil_div_least L C :
  0 < C → L ≤ ceil_div L C * C ∧ ∀ k, L ≤ k * C → ceil_div L C ≤ k.
Proof.
  intros HC. rewrite ceil_div_floor by done.
  pose proof (Nat.div_mod L C ltac:(lia)) as Hdm.
  pose proof (Nat.mod_upper_bound L C ltac:(lia)) as Hub.
  set (q := L / C) in *. set (r := L mod C) in *.
  destruct (decide (0 < r)); split; try nia; intros k Hk; nia.
Qed.

Section split.
Context {A : Type}.
Implicit Types (data : list A).

Lemma concat_slices data fuel x step :
  0 < step → length data - x ≤ fuel →
  concat ((λ y, slice data y (y + step)) <$> range_go fuel x (length data) step)
  = drop x data.
Proof.
  intros Hstep. revert x. induction fuel as [|fuel IH]; intros x Hfuel; simpl.
  - by rewrite drop_ge by lia.
  - destruct (decide (x < length data)).
    + simpl. rewrite IH by lia. unfold slice.
      replace (x + step - x) with step by lia.
      rewrite <-(take_drop step (drop x data)) at 2.
      by rewrite drop_drop.
    + by rewrite drop_ge by lia.
Qed.

End split.

Lemma split_chunks_lookup (data : list byte) C i :
  0 < C →
  Client.split_chunks data C !! i =
    if decide (i * C < length data) then Some (take C (drop (i * C) data)) else None.
Proof.
  intros HC. unfold Client.split_chunks.
  rewrite list_lookup_fmap, range_go_lookup by lia. simpl.
  case_decide; [|done]. simpl. unfold slice.
  by replace (i * C + C - i * C) with C by lia.
Qed.

Lemma split_chunks_length (data : list byte) C :
  0 < C → length (Client.split_chunks data C) = ceil_div (length data) C.
Proof.
  intros HC. unfold Client.split_chunks.
  by rewrite length_fmap, length_range_go, ceil_div_floor.
Qed.

Lemma split_chunks_concat (data : list byte) C :
  0 < C → concat (Client.split_chunks data C) = data.
Proof.
  intros HC. unfold Client.split_chunks. by rewrite concat_slices by lia.
Qed.

(** Every slice but the last is full; the last holds 1 to [C] bytes. *)
Lemma split_chunks_sizes (data : list byte) C i chunk :
  0 < C → Client.split_chunks data C !! i = Some chunk →
  1 ≤ length chunk ≤ C ∧
  (S i < length (Client.split_chunks data C) → length chunk = C) ∧
  (S i = length (Client.split_chunks data C) → length chunk = length data - i * C).
Proof.
  intros HC Hi.
  pose proof (lookup_lt_Some _ _ _ Hi) as Hlen.
  rewrite split_chunks_lookup in Hi by done.
  case_decide as Hlt; [|done]. injection Hi as <-.
  rewrite length_take, length_drop.
  split; [lia|]. split.
  - intros Hnext.
    apply lookup_lt_is_Some in Hnext as [c Hc].
    rewrite split_chunks_lookup in Hc by done.
    case_decide; [|done]. lia.
  - intros Hlast.
    assert (Client.split_chunks data C !! S i = None) as Hnone
      by (apply lookup_ge_None; lia).
    rewrite split_chunks_lookup in Hnone by done.
    case_decide; [done|]. lia.
Qed.

(** ** Running a call *)

Lemma bind_ok {A B} (c : M A) (k : A → M B) w a w' :
  c w = (Ok a, w') → bind c k w = k a w'.
Proof. unfold bind. by intros ->. Qed.

Lemma bind_raise {A B} (c : M A) (k : A → M B) w e w' :
  c w = (Raise e, w') → bind c k w = (Raise e, w').
Proof. unfold bind. by intros ->. Qed.

Lemma getitem_ok {K V} `{Countable K} (d : gmap K V) k name v w :
  d !! k = Some v → getitem d k name w = (Ok v, w).
Proof. unfold getitem. by intros ->. Qed.

Lemma getitem_raise {K V} `{Countable K} (d : gmap K V) k name w :
  d !! k = None → getitem d k name w = (Raise (KeyError name), w).
Proof. unfold getitem. by intros ->. Qed.

Lemma set_master_id w : set_master (master w) w = w.
Proof. by destruct w. Qed.

(** ** Allocation *)

Lemma alloc_chunks_loop_spec n acc w :
  num_chunkservers (master w) ≠ 0 →
  chunkrobin (master w) < num_chunkservers (master w) →
  ∃ ct,
    Master.alloc_chunks_loop n acc w
      = (Ok (acc ++ seq (uuid_clock w) n), after_alloc ct n w) ∧
    ∀ u, ct !! u =
      if decide (uuid_clock w ≤ u < uuid_clock w + n)
      then Some ((chunkrobin (master w) + (u - uuid_clock w))
                   mod num_chunkservers (master w))
      else chunktable (master w) !! u.
Proof.
  revert acc w. induction n as [|n IH]; intros acc w HN Hr.
  - exists (chunktable (master w)). split.
    + simpl. unfold ret, after_alloc. rewrite app_nil_r.
      destruct w as [[] ?]; simpl in *. unfold set_chunkrobin, set_chunktable; simpl.
      by rewrite Nat.add_0_r, Nat.mod_small, Nat.add_0_r by done.
    + intros u. by rewrite decide_False by lia.
  - destruct w as [[N mx mf C r ft ct css] files u0 ts tp out]; simpl in *.
    set (w1 := mkWorld (mkMaster N mx mf C ((r + 1) mod N) ft (<[u0 := r]> ct) css)
                 files (S u0) ts tp out).
    destruct (IH (acc ++ [u0]) w1) as (ct' & Hrun & Hct); simpl.
    { done. } { by apply Nat.mod_upper_bound. }
    exists ct'. split.
    + unfold bind, uuid1, get_master, modify_master, modulo, ret; simpl.
      rewrite decide_False by done. simpl.
      unfold set_master, set_chunkrobin, set_chunktable; simpl.
      fold w1. rewrite Hrun. rewrite <-app_assoc. simpl.
      unfold after_alloc, w1, set_chunkrobin, set_chunktable; simpl.
      rewrite Nat.Div0.add_mod_idemp_l.
      replace (r + 1 + n) with (r + S n) by lia.
      replace (S (u0 + n)) with (u0 + S n) by lia. done.
    + intros u. rewrite Hct. simpl.
      destruct (decide (u = u0)) as [->|Hne].
      * rewrite decide_False by lia. rewrite lookup_insert_eq.
        rewrite decide_True by lia.
        by rewrite Nat.sub_diag, Nat.add_0_r, Nat.mod_small by done.
      * rewrite lookup_insert_ne by done.
        repeat case_decide; try lia; [|done].
        rewrite Nat.Div0.add_mod_idemp_l.
        by replace (r + 1 + (u - S u0)) with (r + (u - u0)) by lia.
Qed.

(** ** Storing and fetching chunks *)

Lemma after_store_twice files files' pool pool' w :
  after_store files' pool' (after_store files pool w) = after_store files' pool' w.
Proof. by destruct w as [[] ?]. Qed.

Lemma same_roots_refl pool : same_roots pool pool.
Proof. by intros loc. Qed.

Lemma same_roots_trans pool1 pool2 pool3 :
  same_roots pool1 pool2 → same_roots pool2 pool3 → same_roots pool1 pool3.
Proof. intros H12 H23 loc. by rewrite H23, H12. Qed.

Lemma chunk_path_after_store files pool w u :
  same_roots (chunkservers (master w)) pool →
  chunk_path (master (after_store files pool w)) u = chunk_path (master w) u.
Proof.
  intros Hroots. unfold chunk_path; simpl.
  destruct (chunktable (master w) !! u) as [loc|]; [|done].
  specialize (Hroots loc).
  destruct (pool !! loc) as [cs'|], (chunkservers (master w) !! loc) as [cs|];
    simplify_eq/=; [|done].
  unfold Chunkserver.chunk_filename. by rewrite Hroots.
Qed.

(** Two tokens never share a file. *)
Lemma chunk_path_inj m u u' p :
  chunk_path m u = Some p → chunk_path m u' = Some p → u = u'.
Proof.
  unfold chunk_path. intros Hu Hu'.
  repeat case_match; simplify_eq.
  by eapply chunk_filename_inj.
Qed.

Lemma write_chunk_spec chunkuuids chunks i w u c p :
  chunkuuids !! i = Some u → chunks !! i = Some c →
  chunk_path (master w) u = Some p →
  ∃ pool,
    Client.write_chunk chunkuuids chunks i w
      = (Ok tt, after_store (<[p := c]> (fs w)) pool w) ∧
    same_roots (chunkservers (master w)) pool.
Proof.
  intros Hu Hc Hp. unfold chunk_path in Hp.
  destruct (chunktable (master w) !! u) as [loc|] eqn:Hloc; [|done].
  destruct (chunkservers (master w) !! loc) as [cs|] eqn:Hcs; [|done].
  injection Hp as <-.
  eexists. split.
  - unfold Client.write_chunk, list_getitem, Master.get_chunkloc,
      Master.get_chunkservers, get_master, bind, ret.
    rewrite Hu; simpl. unfold getitem. rewrite Hloc; simpl.
    rewrite Hcs, Hc; simpl.
    unfold Chunkserver.write, bind, file_write, modify_master. simpl.
    reflexivity.
  - intros loc'. destruct (decide (loc' = loc)) as [->|Hne].
    + by rewrite lookup_insert_eq, Hcs.
    + by rewrite lookup_insert_ne.
Qed.

Lemma write_loop_spec chunkuuids chunks k : ∀ i w,
  NoDup chunkuuids →
  (∀ j, i ≤ j < i + k →
     ∃ u c p, chunkuuids !! j = Some u ∧ chunks !! j = Some c ∧
              chunk_path (master w) u = Some p) →
  ∃ files pool,
    for_each (seq i k) (Client.write_chunk chunkuuids chunks) w
      = (Ok tt, after_store files pool w) ∧
    same_roots (chunkservers (master w)) pool ∧
    (∀ j u c p, i ≤ j < i + k →
       chunkuuids !! j = Some u → chunks !! j = Some c →
       chunk_path (master w) u = Some p → files !! p = Some c) ∧
    (∀ p, (∀ j u, i ≤ j < i + k → chunkuuids !! j = Some u →
             chunk_path (master w) u ≠ Some p) →
          files !! p = fs w !! p).
Proof.
  induction k as [|k IH]; intros i w Hnd Hpre.
  - exists (fs w), (chunkservers (master w)). split; [|split; [|split]].
    + simpl. unfold ret. by destruct w as [[] ?].
    + apply same_roots_refl.
    + intros; lia.
    + done.
  - destruct (Hpre i ltac:(lia)) as (u & c & p & Hu & Hc & Hp).
    destruct (write_chunk_spec _ _ _ _ _ _ _ Hu Hc Hp) as (pool1 & Hrun1 & Hroots1).
    set (w1 := after_store (<[p:=c]> (fs w)) pool1 w) in *.
    destruct (IH (S i) w1 Hnd) as (files & pool & Hrun & Hroots & Hnew & Hold).
    { intros j Hj. destruct (Hpre j ltac:(lia)) as (u' & c' & p' & ? & ? & ?).
      exists u', c', p'. unfold w1. by rewrite chunk_path_after_store. }
    exists files, pool. split; [|split; [|split]].
    + simpl. rewrite (bind_ok _ _ _ _ _ Hrun1). fold w1. rewrite Hrun.
      unfold w1. by rewrite after_store_twice.
    + eapply same_roots_trans; [exact Hroots1|exact Hroots].
    + intros j u' c' p' Hj Hu' Hc' Hp'.
      destruct (decide (j = i)) as [->|Hji].
      * assert (u' = u) as -> by congruence.
        assert (c' = c) as -> by congruence.
        assert (p' = p) as -> by congruence.
        trans (fs w1 !! p).
        { apply Hold. intros j u'' Hj' Hu''.
          unfold w1. rewrite chunk_path_after_store by done.
          intros Hp''. assert (u'' = u) as -> by by eapply chunk_path_inj.
          assert (j = i) by by eapply NoDup_lookup. lia. }
        unfold w1; simpl. by rewrite lookup_insert_eq.
      * apply (Hnew j u' c' p'); [lia|done..|].
        unfold w1. by rewrite chunk_path_after_store.
    + intros p' Hp'. trans (fs w1 !! p').
      * apply Hold. intros j u' Hj Hu'.
        unfold w1. rewrite chunk_path_after_store by done.
        apply (Hp' j); [lia|done].
      * unfold w1; simpl. rewrite lookup_insert_ne; [done|].
        intros ->. by apply (Hp' i u ltac:(lia)).
Qed.

Lemma read_loop_spec chunkuuids : ∀ chunks acc w,
  Forall2 (λ u c, stored w u = Some c) chunkuuids chunks →
  Client.read_loop chunkuuids acc w = (Ok (acc ++ chunks), w).
Proof.
  induction chunkuuids as [|u us IH]; intros chunks acc w Hall.
  - apply Forall2_nil_inv_l in Hall as ->. simpl. by rewrite app_nil_r.
  - apply Forall2_cons_inv_l in Hall as (c & cs & Hc & Hcs & ->).
    unfold stored, chunk_path in Hc.
    destruct (chunktable (master w) !! u) as [loc|] eqn:Hloc; [|done].
    destruct (chunkservers (master w) !! loc) as [server|] eqn:Hserver; [|done].
    simpl. unfold Master.get_chunkloc, Master.get_chunkservers, get_master,
      bind, ret, getitem. rewrite Hloc; simpl. rewrite Hserver; simpl.
    unfold Chunkserver.read, file_read. rewrite Hc.
    change (Client.read_loop us (acc ++ [c]) w = (Ok (acc ++ c :: cs), w)).
    rewrite (IH cs) by done. by rewrite <-app_assoc.
Qed.

Lemma foldl_app_concat {A} (x : list A) (l : list (list A)) :
  foldl (λ x y, x ++ y) x l = x ++ concat l.
Proof.
  revert x. induction l as [|y l IH]; intros x; simpl.
  - by rewrite app_nil_r.
  - by rewrite IH, app_assoc.
Qed.

Lemma read_spec filename chunkuuids chunks w :
  filetable (master w) !! filename = Some chunkuuids →
  Forall2 (λ u c, stored w u = Some c) chunkuuids chunks →
  Client.read filename w =
    (match chunks with [] => Raise TypeError | _ => Ok (concat chunks) end, w).
Proof.
  intros Hf Hall.
  unfold Client.read, Client.exists_, Master.exists_, Master.get_chunkuuids,
    get_master, bind, ret, getitem. simpl.
  rewrite Hf. rewrite bool_decide_true by eauto. simpl. rewrite Hf. simpl.
  rewrite (read_loop_spec _ chunks) by done. simpl.
  destruct chunks as [|c cs]; [done|]. simpl.
  unfold ret. by rewrite foldl_app_concat.
Qed.

Lemma read_missing filename w :
  filetable (master w) !! filename = None →
  Client.read filename w =
    (Raise (Exception ("read error, file does not exist: " +:+ filename)), w).
Proof.
  intros Hf. unfold Client.read, Client.exists_, Master.exists_, get_master,
    bind, ret. simpl.
  rewrite Hf. rewrite bool_decide_false by (by intros [? ?]). done.
Qed.

(** ** The master's calls *)

Lemma delete_spec filename chunkuuids w :
  filetable (master w) !! filename = Some chunkuuids →
  Master.delete filename w = (Ok tt, after_delete filename chunkuuids w).
Proof.
  intros Hf. unfold Master.delete, get_master, bind, getitem.
  rewrite Hf. reflexivity.
Qed.

Lemma delete_missing filename w :
  filetable (master w) !! filename = None →
  Master.delete filename w = (Raise (KeyError (KFile filename)), w).
Proof.
  intros Hf. unfold Master.delete, get_master, bind, getitem.
  by rewrite Hf.
Qed.

Lemma exists_spec filename w :
  Client.exists_ filename w
    = (Ok (bool_decide (is_Some (filetable (master w) !! filename))), w).
Proof. reflexivity. Qed.

Lemma alloc_spec filename n w :
  num_chunkservers (master w) ≠ 0 →
  chunkrobin (master w) < num_chunkservers (master w) →
  ∃ ct,
    Master.alloc filename n w
      = (Ok (seq (uuid_clock w) n),
         bind_file filename (seq (uuid_clock w) n) (after_alloc ct n w)) ∧
    ∀ u, ct !! u =
      if decide (uuid_clock w ≤ u < uuid_clock w + n)
      then Some ((chunkrobin (master w) + (u - uuid_clock w))
                   mod num_chunkservers (master w))
      else chunktable (master w) !! u.
Proof.
  intros HN Hr.
  destruct (alloc_chunks_loop_spec n [] w HN Hr) as (ct & Hrun & Hct).
  exists ct. split; [|done].
  unfold Master.alloc, Master.alloc_chunks.
  rewrite (bind_ok _ _ _ _ _ Hrun). reflexivity.
Qed.

Lemma alloc_append_spec filename chunkuuids n w :
  num_chunkservers (master w) ≠ 0 →
  chunkrobin (master w) < num_chunkservers (master w) →
  filetable (master w) !! filename = Some chunkuuids →
  ∃ ct,
    Master.alloc_append filename n w
      = (Ok (seq (uuid_clock w) n),
         bind_file filename (chunkuuids ++ seq (uuid_clock w) n) (after_alloc ct n w)) ∧
    ∀ u, ct !! u =
      if decide (uuid_clock w ≤ u < uuid_clock w + n)
      then Some ((chunkrobin (master w) + (u - uuid_clock w))
                   mod num_chunkservers (master w))
      else chunktable (master w) !! u.
Proof.
  intros HN Hr Hf.
  destruct (alloc_chunks_loop_spec n [] w HN Hr) as (ct & Hrun & Hct).
  exists ct. split; [|done].
  unfold Master.alloc_append, Master.alloc_chunks, get_master.
  unfold bind at 1. unfold bind at 1. rewrite (getitem_ok _ _ _ _ _ Hf).
  rewrite (bind_ok _ _ _ _ _ Hrun). reflexivity.
Qed.

Lemma alloc_append_missing filename n w :
  filetable (master w) !! filename = None →
  Master.alloc_append filename n w = (Raise (KeyError (KFile filename)), w).
Proof.
  intros Hf. unfold Master.alloc_append, get_master, bind, getitem.
  by rewrite Hf.
Qed.

(** ** The client's calls *)

Lemma num_chunks_spec size w :
  chunksize (master w) ≠ 0 →
  Client.num_chunks size w = (Ok (ceil_div size (chunksize (master w))), w).
Proof.
  intros HC. unfold Client.num_chunks, get_master, bind, floordiv, modulo, ret.
  rewrite !decide_False by done.
  by rewrite ceil_div_floor by lia.
Qed.

Lemma write_chunks_spec chunkuuids data w :
  chunksize (master w) ≠ 0 →
  NoDup chunkuuids →
  length chunkuuids ≤ length (Client.split_chunks data (chunksize (master w))) →
  (∀ u, u ∈ chunkuuids → is_Some (chunk_path (master w) u)) →
  ∃ files pool,
    Client.write_chunks chunkuuids data w = (Ok tt, after_store files pool w) ∧
    same_roots (chunkservers (master w)) pool ∧
    (∀ j u c, chunkuuids !! j = Some u →
       Client.split_chunks data (chunksize (master w)) !! j = Some c →
       stored (after_store files pool w) u = Some c) ∧
    (∀ u, u ∉ chunkuuids → stored (after_store files pool w) u = stored w u).
Proof.
  intros HC Hnd Hlen Hpaths.
  set (chunks := Client.split_chunks data (chunksize (master w))) in *.
  destruct (write_loop_spec chunkuuids chunks (length chunkuuids) 0 w Hnd)
    as (files & pool & Hrun & Hroots & Hnew & Hold).
  { intros j Hj.
    destruct (lookup_lt_is_Some_2 chunkuuids j ltac:(lia)) as [u Hu].
    destruct (lookup_lt_is_Some_2 chunks j ltac:(lia)) as [c Hc].
    destruct (Hpaths u) as [p Hp]; [by eapply list_elem_of_lookup_2|].
    by exists u, c, p. }
  exists files, pool. split; [|split; [done|split]].
  - unfold Client.write_chunks, get_master, range3.
    unfold bind at 1. unfold bind at 1.
    rewrite decide_False by done. unfold ret at 1. exact Hrun.
  - intros j u c Hu Hc.
    destruct (Hpaths u) as [p Hp]; [by eapply list_elem_of_lookup_2|].
    unfold stored. rewrite chunk_path_after_store, Hp by done. simpl.
    apply (Hnew j u c p); [|done..].
    apply lookup_lt_Some in Hu. lia.
  - intros u Hu. unfold stored. rewrite chunk_path_after_store by done.
    destruct (chunk_path (master w) u) as [p|] eqn:Hp; [|done]. simpl.
    apply Hold. intros j u' _ Hu' Hp'.
    assert (u' = u) as -> by by eapply chunk_path_inj.
    apply Hu. by eapply list_elem_of_lookup_2.
Qed.

(** ** The invariant *)

Lemma Inv_init files first clock : Inv first (init_world files first clock).
Proof.
  split; simpl; try done.
  - by rewrite Nat.sub_diag.
  - intros u. rewrite lookup_empty. by rewrite decide_False by lia.
  - intros loc Hloc.
    do 5 (destruct loc as [|loc]; [by eexists|]). lia.
Qed.

Lemma Inv_after_delete first filename chunkuuids w :
  Inv first w →
  filetable (master w) !! filename = Some chunkuuids →
  Inv first (after_delete filename chunkuuids w).
Proof.
  intros [] Hf.
  set (dk := deleted_key (time_src w (time_pos w)) filename).
  assert (∀ g lg,
    (<[dk := chunkuuids]> (delete filename (filetable (master w)))) !! g = Some lg →
    (g = dk ∧ lg = chunkuuids) ∨
    (g ≠ dk ∧ g ≠ filename ∧ filetable (master w) !! g = Some lg)) as Hcases.
  { intros g lg. rewrite lookup_insert. case_decide as Hg.
    - intros [= <-]. by left.
    - rewrite lookup_delete. case_decide; [done|]. intros ?. by right. }
  split; simpl; try done; fold dk.
  - intros g lg u Hg Hu. apply Hcases in Hg as [[-> ->]|(_ & _ & Hg)]; eauto.
  - intros g lg Hg. apply Hcases in Hg as [[-> ->]|(_ & _ & Hg)]; eauto.
  - intros g h lg lh u Hgh Hg Hh Hu.
    apply Hcases in Hg as [[-> ->]|(? & ? & Hg)];
      apply Hcases in Hh as [[-> ->]|(? & ? & Hh)]; try done.
    + by eapply (inv_disjoint0 filename h).
    + by eapply (inv_disjoint0 g filename).
    + by eapply (inv_disjoint0 g h).
Qed.

Lemma Inv_after_alloc first ct n w :
  Inv first w →
  (∀ u, ct !! u =
     if decide (uuid_clock w ≤ u < uuid_clock w + n)
     then Some ((chunkrobin (master w) + (u - uuid_clock w))
                  mod num_chunkservers (master w))
     else chunktable (master w) !! u) →
  Inv first (after_alloc ct n w).
Proof.
  intros [] Hct. split; simpl; try done.
  - lia.
  - rewrite inv_servers0, inv_robin0, Nat.Div0.add_mod_idemp_l.
    f_equal. lia.
  - intros u. rewrite Hct, inv_chunktable0, inv_servers0, inv_robin0.
    repeat case_decide; try lia; try done.
    rewrite Nat.Div0.add_mod_idemp_l. do 2 f_equal. lia.
  - intros f l u Hf Hu. specialize (inv_files0 f l u Hf Hu). lia.
Qed.

Lemma Inv_bind_file first filename chunkuuids w :
  Inv first w →
  NoDup chunkuuids →
  (∀ u, u ∈ chunkuuids → first ≤ u < uuid_clock w) →
  (∀ g lg u, g ≠ filename → filetable (master w) !! g = Some lg →
     u ∈ chunkuuids → u ∉ lg) →
  Inv first (bind_file filename chunkuuids w).
Proof.
  intros [] Hnd Hrange Hfresh. split; simpl; try done.
  - intros g lg u. rewrite lookup_insert. case_decide.
    + intros [= <-]. apply Hrange.
    + apply inv_files0.
  - intros g lg. rewrite lookup_insert. case_decide.
    + by intros [= <-].
    + apply inv_nodup0.
  - intros g h lg lh u Hgh. rewrite !lookup_insert.
    repeat case_decide; simplify_eq.
    + intros [= <-] Hh Hu. by eapply Hfresh.
    + intros Hg [= <-] Hu Hu'. by eapply (Hfresh g lg u).
    + by apply inv_disjoint0.
Qed.

Lemma Inv_after_store first files pool w :
  Inv first w →
  same_roots (chunkservers (master w)) pool →
  Inv first (after_store files pool w).
Proof.
  intros [] Hroots. split; simpl; try done.
  intros loc Hloc. destruct (inv_pool0 loc Hloc) as [cs Hcs].
  specialize (Hroots loc). rewrite Hcs in Hroots.
  destruct (pool !! loc); [by eexists|done].
Qed.

(** Placements never change: the chunk table only grows. *)
Lemma Inv_chunktable_stable first w w' u loc :
  Inv first w → Inv first w' → uuid_clock w ≤ uuid_clock w' →
  chunktable (master w) !! u = Some loc →
  chunktable (master w') !! u = Some loc.
Proof.
  intros [] [] Hle. rewrite inv_chunktable0, inv_chunktable1.
  repeat case_decide; try done; lia.
Qed.

Lemma Inv_chunk_path first w u :
  Inv first w → first ≤ u < uuid_clock w → is_Some (chunk_path (master w) u).
Proof.
  intros [] Hu. unfold chunk_path. rewrite inv_chunktable0.
  rewrite decide_True by done.
  destruct (inv_pool0 ((u - first) mod 5)) as [cs ->]; [|done].
  by apply Nat.mod_upper_bound.
Qed.

(** ** Calls that only read *)

Lemma read_only_ret {A} (a : A) : read_only (ret a).
Proof. done. Qed.

Lemma read_only_raise {A} e : read_only (@raise A e).
Proof. done. Qed.

Lemma read_only_bind {A B} (c : M A) (k : A → M B) :
  read_only c → (∀ a, read_only (k a)) → read_only (bind c k).
Proof.
  intros Hc Hk w. unfold bind. specialize (Hc w).
  destruct (c w) as [[a|e] w']; simpl in *; subst w'; [apply Hk|done].
Qed.

Lemma read_only_getitem {K V} `{Countable K} (d : gmap K V) k name :
  read_only (getitem d k name).
Proof. intros w. unfold getitem. by destruct (d !! k). Qed.

Lemma read_only_file_read path : read_only (file_read path).
Proof. intros w. unfold file_read. by destruct (fs w !! path). Qed.

Lemma read_only_reduce {A} (f : A → A → A) l : read_only (reduce f l).
Proof. intros w. by destruct l. Qed.

Lemma read_only_read_loop chunkuuids : ∀ chunks,
  read_only (Client.read_loop chunkuuids chunks).
Proof.
  induction chunkuuids as [|u us IH]; intros chunks; simpl.
  - apply read_only_ret.
  - apply read_only_bind; [|intros loc].
    { apply read_only_bind; [done|intros m]. apply read_only_getitem. }
    apply read_only_bind; [|intros pool].
    { apply read_only_bind; [done|intros m]. apply read_only_ret. }
    apply read_only_bind; [apply read_only_getitem|intros server].
    apply read_only_bind; [apply read_only_file_read|intros chunk].
    apply IH.
Qed.

Lemma read_only_exists filename : read_only (Client.exists_ filename).
Proof. done. Qed.

Lemma read_only_read filename : read_only (Client.read filename).
Proof.
  unfold Client.read.
  apply read_only_bind; [apply read_only_exists|intros e].
  apply read_only_bind; [destruct e; done|intros _].
  apply read_only_bind; [|intros us].
  { apply read_only_bind; [done|intros m]. apply read_only_getitem. }
  apply read_only_bind; [apply read_only_read_loop|intros chunks].
  apply read_only_reduce.
Qed.

(** ** Writing a file *)

Lemma delete_if_exists_frame filename w :
  let w' := delete_if_exists filename w in
  uuid_clock w' = uuid_clock w ∧ fs w' = fs w ∧
  chunktable (master w') = chunktable (master w) ∧
  chunkservers (master w') = chunkservers (master w).
Proof.
  unfold delete_if_exists.
  by destruct (filetable (master w) !! filename).
Qed.

Lemma Inv_delete_if_exists first filename w :
  Inv first w → Inv first (delete_if_exists filename w).
Proof.
  intros HI. unfold delete_if_exists.
  destruct (filetable (master w) !! filename) eqn:Hf; [|done].
  by apply Inv_after_delete.
Qed.

Lemma write_prefix {A} filename (k : M A) w :
  (e <- Client.exists_ filename;;
   (if e then Client.delete filename else ret tt);; k) w
  = k (delete_if_exists filename w).
Proof.
  rewrite (bind_ok _ _ _ _ _ (exists_spec filename w)).
  unfold delete_if_exists.
  destruct (filetable (master w) !! filename) as [l|] eqn:Hf.
  - rewrite bool_decide_true by eauto.
    unfold Client.delete. by rewrite (bind_ok _ _ _ _ _ (delete_spec _ _ _ Hf)).
  - rewrite bool_decide_false by (by intros [? ?]). done.
Qed.

(** Storing the chunks of a payload under tokens that were just allocated. *)
Lemma store_fresh first filename l data ct w :
  Inv first w →
  let n := ceil_div (length data) 10 in
  let us := seq (uuid_clock w) n in
  (∀ u, ct !! u =
     if decide (uuid_clock w ≤ u < uuid_clock w + n)
     then Some ((chunkrobin (master w) + (u - uuid_clock w))
                  mod num_chunkservers (master w))
     else chunktable (master w) !! u) →
  Inv first (bind_file filename l (after_alloc ct n w)) →
  ∃ w',
    Client.write_chunks us data (bind_file filename l (after_alloc ct n w))
      = (Ok tt, w') ∧
    Inv first w' ∧
    uuid_clock w' = uuid_clock w + n ∧
    filetable (master w') = <[filename := l]> (filetable (master w)) ∧
    (∀ j u c, us !! j = Some u →
       Client.split_chunks data 10 !! j = Some c → stored w' u = Some c) ∧
    (∀ u, u < uuid_clock w → stored w' u = stored w u).
Proof.
  intros HI n us Hct HIb.
  set (wb := bind_file filename l (after_alloc ct n w)) in *.
  assert (chunksize (master wb) = 10) as HC by apply HIb.
  destruct (write_chunks_spec us data wb) as (files & pool & Hrun & Hroots & Hnew & Hold).
  { by rewrite HC. }
  { apply NoDup_seq. }
  { rewrite HC, split_chunks_length by lia. unfold us. by rewrite length_seq. }
  { intros u Hu. apply (Inv_chunk_path first); [done|].
    apply elem_of_seq in Hu. destruct HI. simpl. lia. }
  exists (after_store files pool wb). split; [done|].
  split; [by apply Inv_after_store|].
  split; [done|]. split; [done|]. split.
  - intros j u c Hu Hc. rewrite HC in Hnew. by apply (Hnew j).
  - intros u Hu. rewrite Hold.
    + unfold stored, chunk_path. simpl. rewrite Hct.
      by rewrite decide_False by lia.
    + intros Hin. apply elem_of_seq in Hin. lia.
Qed.

Lemma write_spec first filename data w :
  Inv first w →
  let n := ceil_div (length data) 10 in
  let us := seq (uuid_clock w) n in
  ∃ w',
    Client.write filename data w = (Ok tt, w') ∧
    Inv first w' ∧
    uuid_clock w' = uuid_clock w + n ∧
    filetable (master w')
      = <[filename := us]> (filetable (master (delete_if_exists filename w))) ∧
    (∀ j u c, us !! j = Some u →
       Client.split_chunks data 10 !! j = Some c → stored w' u = Some c) ∧
    (∀ u, u < uuid_clock w → stored w' u = stored w u) ∧
    ∃ wb, Master.alloc filename n (delete_if_exists filename w) = (Ok us, wb) ∧
          Client.write_chunks us data wb = (Ok tt, w').
Proof.
  intros HI n us.
  set (wa := delete_if_exists filename w).
  pose proof (Inv_delete_if_exists first filename w HI) as HIa. fold wa in HIa.
  destruct (delete_if_exists_frame filename w) as (Hclock & Hfs & Hct0 & Hpool).
  fold wa in Hclock, Hfs, Hct0, Hpool.
  assert (num_chunkservers (master wa) = 5) as HN by apply HIa.
  assert (chunksize (master wa) = 10) as HC by apply HIa.
  assert (chunkrobin (master wa) < 5) as Hr.
  { destruct HIa as [_ _ _ -> _ _ _ _ _]. by apply Nat.mod_upper_bound. }
  destruct (alloc_spec filename n wa) as (ct & Halloc & Hct); [lia..|].
  rewrite Hclock in Halloc. fold us in Halloc.
  destruct (store_fresh first filename us data ct wa HIa)
    as (w' & Hrun & HI' & Hclock' & Hft & Hnew & Hold).
  { done. }
  { apply Inv_bind_file.
    - by apply Inv_after_alloc.
    - apply NoDup_seq.
    - intros u Hu. apply elem_of_seq in Hu. destruct HI. simpl. lia.
    - intros g lg u _ Hg Hu Hu'. apply elem_of_seq in Hu.
      destruct HIa. specialize (inv_files0 g lg u Hg Hu'). lia. }
  rewrite Hclock in Hrun, Hclock', Hnew, Hold. fold n us in Hrun, Hnew.
  exists w'. split; [|split; [done|split; [done|split; [done|split; [done|split]]]]].
  - unfold Client.write. rewrite write_prefix. fold wa.
    rewrite (bind_ok _ _ _ _ _ (num_chunks_spec _ wa ltac:(lia))).
    rewrite HC. fold n. rewrite (bind_ok _ _ _ _ _ Halloc). exact Hrun.
  - intros u Hu. rewrite Hold by done.
    unfold stored, chunk_path. by rewrite Hct0, Hpool, Hfs.
  - eexists. split; [exact Halloc|exact Hrun].
Qed.

Lemma write_append_spec first filename l data w :
  Inv first w →
  filetable (master w) !! filename = Some l →
  let n := ceil_div (length data) 10 in
  let us := seq (uuid_clock w) n in
  ∃ w',
    Client.write_append filename data w = (Ok tt, w') ∧
    Inv first w' ∧
    uuid_clock w' = uuid_clock w + n ∧
    filetable (master w') = <[filename := l ++ us]> (filetable (master w)) ∧
    (∀ j u c, us !! j = Some u →
       Client.split_chunks data 10 !! j = Some c → stored w' u = Some c) ∧
    (∀ u, u < uuid_clock w → stored w' u = stored w u) ∧
    ∃ wb, Master.alloc_append filename n w = (Ok us, wb) ∧
          Client.write_chunks us data wb = (Ok tt, w').
Proof.
  intros HI Hf n us.
  assert (num_chunkservers (master w) = 5) as HN by apply HI.
  assert (chunksize (master w) = 10) as HC by apply HI.
  assert (chunkrobin (master w) < 5) as Hr.
  { destruct HI as [_ _ _ -> _ _ _ _ _]. by apply Nat.mod_upper_bound. }
  destruct (alloc_append_spec filename l n w) as (ct & Halloc & Hct); [lia..|done|].
  fold us in Halloc.
  destruct (store_fresh first filename (l ++ us) data ct w HI)
    as (w' & Hrun & HI' & Hclock' & Hft & Hnew & Hold).
  { done. }
  { apply Inv_bind_file.
    - by apply Inv_after_alloc.
    - apply NoDup_app. split; [by eapply inv_nodup|split; [|apply NoDup_seq]].
      intros u Hu Hu'. apply elem_of_seq in Hu'.
      pose proof (inv_files _ _ HI _ _ _ Hf Hu). lia.
    - intros u Hu. simpl. apply elem_of_app in Hu as [Hu|Hu].
      + pose proof (inv_files _ _ HI _ _ _ Hf Hu). lia.
      + apply elem_of_seq in Hu. destruct HI. lia.
    - intros g lg u Hg Hlg Hu Hu'. simpl in Hlg.
      apply elem_of_app in Hu as [Hu|Hu].
      + by apply (inv_disjoint _ _ HI filename g l lg u).
      + apply elem_of_seq in Hu.
        pose proof (inv_files _ _ HI _ _ _ Hlg Hu'). lia. }
  exists w'. split; [|split; [done|split; [done|split; [done|split; [done|split]]]]].
  - unfold Client.write_append.
    rewrite (bind_ok _ _ _ _ _ (exists_spec filename w)).
    rewrite bool_decide_true by eauto. simpl.
    rewrite (bind_ok _ _ _ tt w) by done.
    rewrite (bind_ok _ _ _ _ _ (num_chunks_spec _ w ltac:(lia))).
    rewrite HC. fold n. rewrite (bind_ok _ _ _ _ _ Halloc). exact Hrun.
  - done.
  - eexists. split; [exact Halloc|exact Hrun].
Qed.

Lemma write_append_missing filename data w :
  filetable (master w) !! filename = None →
  Client.write_append filename data w =
    (Raise (Exception ("append error, file does not exist: " +:+ filename)), w).
Proof.
  intros Hf. unfold Client.write_append.
  rewrite (bind_ok _ _ _ _ _ (exists_spec filename w)).
  rewrite Hf, bool_decide_false by (by intros [? ?]). done.
Qed.

(** ** Every call keeps the invariant *)

Lemma exec_spec first c w :
  Inv first w →
  Inv first (exec c w) ∧ uuid_clock w ≤ uuid_clock (exec c w).
Proof.
  intros HI.
  assert (num_chunkservers (master w) = 5) as HN by apply HI.
  assert (chunkrobin (master w) < 5) as Hr.
  { destruct HI as [_ _ _ -> _ _ _ _ _]. by apply Nat.mod_upper_bound. }
  destruct c as [f d|f d|f|f|f|f n|f n|f]; simpl.
  - destruct (write_spec first f d w HI) as (w' & -> & HI' & Hclock & _).
    simpl. split; [done|lia].
  - destruct (filetable (master w) !! f) as [l|] eqn:Hf.
    + destruct (write_append_spec first f l d w HI Hf) as (w' & -> & HI' & Hclock & _).
      simpl. split; [done|lia].
    + by rewrite write_append_missing.
  - by rewrite read_only_read.
  - done.
  - unfold Client.delete. destruct (filetable (master w) !! f) as [l|] eqn:Hf.
    + rewrite (delete_spec _ _ _ Hf). simpl. split; [by apply Inv_after_delete|done].
    + by rewrite delete_missing.
  - destruct (alloc_spec f n w) as (ct & -> & Hct); [lia..|].
    simpl. split; [|lia]. apply Inv_bind_file.
    + by apply Inv_after_alloc.
    + apply NoDup_seq.
    + intros u Hu. apply elem_of_seq in Hu. destruct HI. simpl. lia.
    + intros g lg u _ Hg Hu Hu'. apply elem_of_seq in Hu.
      pose proof (inv_files _ _ HI _ _ _ Hg Hu'). lia.
  - destruct (filetable (master w) !! f) as [l|] eqn:Hf.
    + destruct (alloc_append_spec f l n w) as (ct & -> & Hct); [lia..|done|].
      simpl. split; [|lia]. apply Inv_bind_file.
      * by apply Inv_after_alloc.
      * apply NoDup_app. split; [by eapply inv_nodup|split; [|apply NoDup_seq]].
        intros u Hu Hu'. apply elem_of_seq in Hu'.
        pose proof (inv_files _ _ HI _ _ _ Hf Hu). lia.
      * intros u Hu. simpl. apply elem_of_app in Hu as [Hu|Hu].
        -- pose proof (inv_files _ _ HI _ _ _ Hf Hu). lia.
        -- apply elem_of_seq in Hu. destruct HI. lia.
      * intros g lg u Hg Hlg Hu Hu'. simpl in Hlg.
        apply elem_of_app in Hu as [Hu|Hu].
        -- by apply (inv_disjoint _ _ HI f g l lg u).
        -- apply elem_of_seq in Hu.
           pose proof (inv_files _ _ HI _ _ _ Hlg Hu'). lia.
    + by rewrite alloc_append_missing.
  - destruct (filetable (master w) !! f) as [l|] eqn:Hf.
    + rewrite (delete_spec _ _ _ Hf). simpl. split; [by apply Inv_after_delete|done].
    + by rewrite delete_missing.
Qed.

Lemma run_calls_spec first cs : ∀ w,
  Inv first w →
  Inv first (run_calls cs w) ∧ uuid_clock w ≤ uuid_clock (run_calls cs w).
Proof.
  induction cs as [|c cs IH]; intros w HI; simpl.
  - done.
  - destruct (exec_spec first c w HI) as [HI' Hle].
    destruct (IH _ HI') as [HI'' Hle']. split; [done|lia].
Qed.

Lemma run_calls_Inv files first clock cs :
  Inv first (run_calls cs (init_world files first clock)).
Proof. apply run_calls_spec, Inv_init. Qed.

Lemma run_calls_app cs cs' w :
  run_calls (cs ++ cs') w = run_calls cs' (run_calls cs w).
Proof. apply foldl_app. Qed.

Lemma reachable_run_calls w :
  reachable w ↔ ∃ files first clock cs, w = run_calls cs (init_world files first clock).
Proof.
  split.
  - induction 1 as [files first clock|c w _ (files & first & clock & cs & ->)].
    + by exists files, first, clock, [].
    + exists files, first, clock, (cs ++ [c]). by rewrite run_calls_app.
  - intros (files & first & clock & cs & ->).
    induction cs as [|c cs IH] using rev_ind.
    + constructor.
    + rewrite run_calls_app. simpl. by constructor.
Qed.

(** ** Reading back what was written *)

Lemma stored_Forall2 w (us : list nat) (chunks : list (list byte)) :
  length us = length chunks →
  (∀ j u c, us !! j = Some u → chunks !! j = Some c → stored w u = Some c) →
  Forall2 (λ u c, stored w u = Some c) us chunks.
Proof.
  intros Hlen Hall. by apply Forall2_same_length_lookup_2.
Qed.

Lemma split_chunks_nil C : Client.split_chunks [] C = [].
Proof. done. Qed.

Lemma split_chunks_nonempty (data : list byte) C :
  0 < C → data ≠ [] → Client.split_chunks data C ≠ [].
Proof.
  intros HC Hdata Hnil. apply Hdata.
  by rewrite <-(split_chunks_concat data C), Hnil by done.
Qed.

(** What [read] returns for chunks that reassemble to [data]. *)
Lemma read_chunks_of filename (us : list nat) (chunks : list (list byte)) data w :
  filetable (master w) !! filename = Some us →
  Forall2 (λ u c, stored w u = Some c) us chunks →
  concat chunks = data → (chunks = [] → data = []) →
  Client.read filename w =
    ((if decide (chunks = []) then Raise TypeError else Ok data), w).
Proof.
  intros Hf Hall Hcat Hnil. rewrite (read_spec _ _ _ _ Hf Hall).
  destruct chunks; [done|]. by rewrite decide_False, Hcat.
Qed.

Lemma write_then_read first filename data w :
  Inv first w →
  ∃ w', Client.write filename data w = (Ok tt, w') ∧ Inv first w' ∧
        Client.read filename w' =
          ((if decide (data = []) then Raise TypeError else Ok data), w').
Proof.
  intros HI.
  destruct (write_spec first filename data w HI)
    as (w' & Hrun & HI' & _ & Hft & Hnew & _).
  exists w'. split; [done|]. split; [done|].
  set (chunks := Client.split_chunks data 10) in *.
  rewrite (read_chunks_of filename
             (seq (uuid_clock w) (ceil_div (length data) 10)) chunks data).
  - destruct data as [|b data].
    + by rewrite decide_True.
    + rewrite (decide_False (P := b :: data = [])) by done.
      rewrite decide_False; [done|].
      apply split_chunks_nonempty; [lia|done].
  - rewrite Hft. apply lookup_insert_eq.
  - apply stored_Forall2; [|done].
    unfold chunks. rewrite length_seq, split_chunks_length; [done|lia].
  - apply split_chunks_concat. lia.
  - intros Hnil. rewrite <-(split_chunks_concat data 10) by lia.
    fold chunks. by rewrite Hnil.
Qed.

Lemma string_length_app (s t : string) :
  String.length (s +:+ t) = String.length s + String.length t.
Proof. induction s as [|c s IH]; simpl; [done|]. by rewrite IH. Qed.

(** The key a file is renamed to is never the file's own name. *)
Lemma deleted_key_ne timestamp filename :
  deleted_key timestamp filename ≠ filename.
Proof.
  intros Heq. apply (f_equal String.length) in Heq.
  unfold deleted_key in Heq. rewrite !string_length_app in Heq.
  simpl in Heq. lia.
Qed.

(** * The properties *)

(** ** Chunk count *)

(** C4: for a byte length [L] and a configured chunk size [C > 0],
    [num_chunks] returns [ceil(L / C)]: it is [floor(L / C)] plus one exactly
    when [L mod C] is not zero, it is the least number of [C]-byte chunks that
    hold [L] bytes, and it is [0] for [L = 0]. *)
Theorem num_chunks_is_ceiling (w : World) (L : nat) :
  0 < chunksize (master w) →
  ∃ k, Client.num_chunks L w = (Ok k, w) ∧
       k = ceil_div L (chunksize (master w)) ∧
       k = L / chunksize (master w)
           + (if decide (L mod chunksize (master w) = 0) then 0 else 1) ∧
       L ≤ k * chunksize (master w) ∧
       (∀ k', L ≤ k' * chunksize (master w) → k ≤ k') ∧
       (L = 0 → k = 0).
Proof.
  intros HC. set (C := chunksize (master w)) in *.
  exists (ceil_div L C). split; [apply num_chunks_spec; fold C; lia|].
  split; [done|]. destruct (ceil_div_least L C HC) as [Hup Hleast].
  split; [|split; [done|split; [done|]]].
  - rewrite ceil_div_floor by done. repeat case_decide; lia.
  - intros ->. specialize (Hleast 0). lia.
Qed.

Lemma num_chunks_is_ceiling_witness :
  0 < chunksize (master sample_world) ∧
  Client.num_chunks 37 sample_world = (Ok 4, sample_world).
Proof.
  assert (0 < chunksize (master sample_world)) as HC by (simpl; lia).
  split; [exact HC|].
  destruct (num_chunks_is_ceiling sample_world 37 HC) as (k & -> & -> & _).
  reflexivity.
Defined.

(** ** Append to a missing file *)

(** C7: [write_append] on a name that is not in the file table raises the
    append error (an [Exception] whose message names the append and the file,
    unlike the one [read] raises) and changes nothing: the file table, the
    chunk table and the round-robin cursor are as before, no token was
    drawn. *)
Theorem write_append_missing_file (w : World) (f : string) (d : list byte) :
  filetable (master w) !! f = None →
  let e := Exception ("append error, file does not exist: " +:+ f) in
  let w' := (Client.write_append f d w).2 in
  Client.exists_ f w = (Ok false, w) ∧
  Client.write_append f d w = (Raise e, w') ∧
  filetable (master w') = filetable (master w) ∧
  chunktable (master w') = chunktable (master w) ∧
  chunkrobin (master w') = chunkrobin (master w) ∧
  uuid_clock w' = uuid_clock w ∧
  w' = w ∧
  (Client.read f w).1 ≠ Raise e.
Proof.
  intros Hf e w'. unfold w'.
  rewrite (write_append_missing _ _ _ Hf), (read_missing _ _ Hf). simpl.
  split.
  { rewrite exists_spec, Hf. by rewrite bool_decide_false by apply is_Some_None. }
  repeat (split; [done|]). by intros [=].
Qed.

Lemma write_append_missing_file_witness :
  filetable (master sample_world) !! "/usr/python/readme.txt" = None ∧
  Client.write_append "/usr/python/readme.txt" (sample_data "foo") sample_world
  = (Raise (Exception
       "append error, file does not exist: /usr/python/readme.txt"),
     sample_world).
Proof.
  assert (filetable (master sample_world) !! "/usr/python/readme.txt" = None)
    as Hf by reflexivity.
  split; [exact Hf|].
  destruct (write_append_missing_file sample_world "/usr/python/readme.txt"
              (sample_data "foo") Hf) as (_ & Hrun & _ & _ & _ & _ & Hw & _).
  rewrite Hrun. by rewrite Hw.
Defined.

(** ** Delete *)

(** C6: for a name [f] in the file table, [delete(f)] returns; afterwards
    [exists(f)] is false and [read(f)] raises the read error for a missing
    file; the chunk-id sequence [f] had is what the master returns for the
    key made of the deleted-namespace prefix, the timestamp and [f]; and no
    placement entry, chunkserver or stored payload has changed. *)
Theorem delete_renames (w : World) (f : string) (l : list nat) :
  filetable (master w) !! f = Some l →
  let dk := "/hidden/deleted/" +:+ time_src w (time_pos w) +:+ f in
  ∃ w', Client.delete f w = (Ok tt, w') ∧
        Client.exists_ f w' = (Ok false, w') ∧
        Client.read f w' =
          (Raise (Exception ("read error, file does not exist: " +:+ f)), w') ∧
        Client.exists_ dk w' = (Ok true, w') ∧
        Master.get_chunkuuids dk w' = (Ok l, w') ∧
        chunktable (master w') = chunktable (master w) ∧
        chunkservers (master w') = chunkservers (master w) ∧
        fs w' = fs w ∧
        (∀ u, stored w' u = stored w u).
Proof.
  intros Hf dk. exists (after_delete f l w).
  assert (filetable (master (after_delete f l w)) !! f = None) as Hgone.
  { simpl. rewrite lookup_insert_ne by apply deleted_key_ne.
    apply lookup_delete_eq. }
  assert (filetable (master (after_delete f l w)) !! dk = Some l) as Hkept.
  { simpl. apply lookup_insert_eq. }
  split; [by apply delete_spec|].
  split. { rewrite exists_spec, Hgone. by rewrite bool_decide_false by apply is_Some_None. }
  split; [by apply read_missing|].
  split. { rewrite exists_spec, Hkept. by rewrite bool_decide_true by eauto. }
  split. { unfold Master.get_chunkuuids, get_master, bind. by apply getitem_ok. }
  done.
Qed.

Lemma delete_renames_witness :
  let w := exec (CWrite "/a" (sample_data "0123456789abc")) sample_world in
  filetable (master w) !! "/a" = Some [0; 1] ∧
  (Master.get_chunkuuids "/hidden/deleted/1700000000.0/a" (exec (CDelete "/a") w)).1
    = Ok [0; 1].
Proof.
  intros w.
  assert (filetable (master w) !! "/a" = Some [0; 1]) as Hf by (by vm_compute).
  split; [exact Hf|].
  destruct (delete_renames w "/a" [0; 1] Hf) as (w' & Hrun & _ & _ & _ & Hget & _).
  assert ("/hidden/deleted/" +:+ time_src w (time_pos w) +:+ "/a"
          = "/hidden/deleted/1700000000.0/a") as Hkey by reflexivity.
  rewrite Hkey in Hget.
  simpl. rewrite Hrun. simpl. by rewrite Hget.
Defined.

(** ** The empty payload *)

(** C10: in a reachable world, [write] of the empty payload to [f] returns
    and binds [f] to an empty chunk sequence, so [exists(f)] is true
    afterwards; but [read(f)] does not return the empty payload: folding the
    empty chunk list raises [TypeError]. *)
Theorem write_empty_then_read_fails files first clock cs (f : string) :
  let w := run_calls cs (init_world files first clock) in
  ∃ w', Client.write f [] w = (Ok tt, w') ∧
        filetable (master w') !! f = Some [] ∧
        Client.exists_ f w' = (Ok true, w') ∧
        Client.read f w' = (Raise TypeError, w').
Proof.
  intros w.
  pose proof (run_calls_Inv files first clock cs) as HI. fold w in HI.
  destruct (write_spec first f [] w HI) as (w' & Hrun & HI' & _ & Hft & _).
  assert (filetable (master w') !! f = Some []) as Hf.
  { rewrite Hft. apply lookup_insert_eq. }
  exists w'. split; [done|]. split; [done|]. split.
  - rewrite exists_spec, Hf. by rewrite bool_decide_true by eauto.
  - by rewrite (read_spec f [] [] w' Hf).
Qed.

(** ** Round trip *)

(** For a payload that is not empty, [read(f)] right after [write(f, d)]
    returns [d], in every reachable world. *)
Lemma write_read_nonempty files first clock cs (f : string) (d : list byte) :
  d ≠ [] →
  let w := run_calls cs (init_world files first clock) in
  ∃ w', Client.write f d w = (Ok tt, w') ∧ Client.read f w' = (Ok d, w').
Proof.
  intros Hd w.
  destruct (write_then_read first f d w) as (w' & Hrun & _ & Hread).
  { apply run_calls_Inv. }
  exists w'. split; [done|]. by rewrite Hread, decide_False.
Qed.

(** C1 fails on the empty payload: in the start world, [write] of the empty
    payload to ["/f"] returns and the [read("/f")] that follows raises [TypeError] instead of
    returning the empty payload. *)
Theorem read_after_write_empty_raises :
  (Client.write "/f" [];; Client.read "/f") sample_world
  = (Raise TypeError, exec (CWrite "/f" []) sample_world) ∧
  (Client.write "/f" [] sample_world).1 = Ok tt.
Proof. by vm_compute. Qed.

(** ** Append *)

(** [write(f, d1); write_append(f, d2); read(f)] in a world that satisfies
    the invariant: the new tokens go after the old ones, and [read] returns
    [d1 ++ d2] unless both payloads are empty. *)
Lemma write_append_then_read first (f : string) (d1 d2 : list byte) w :
  Inv first w →
  ∃ w1 w2 us1 us2,
    Client.write f d1 w = (Ok tt, w1) ∧
    filetable (master w1) !! f = Some us1 ∧
    Client.write_append f d2 w1 = (Ok tt, w2) ∧
    (∃ wb, Master.alloc_append f (ceil_div (length d2) 10) w1 = (Ok us2, wb)) ∧
    filetable (master w2) !! f = Some (us1 ++ us2) ∧
    Client.read f w2 =
      ((if decide (d1 ++ d2 = []) then Raise TypeError else Ok (d1 ++ d2)), w2).
Proof.
  intros HI.
  destruct (write_spec first f d1 w HI)
    as (w1 & Hrun1 & HI1 & Hclock1 & Hft1 & Hnew1 & _).
  set (us1 := seq (uuid_clock w) (ceil_div (length d1) 10)) in *.
  assert (filetable (master w1) !! f = Some us1) as Hf1.
  { rewrite Hft1. apply lookup_insert_eq. }
  destruct (write_append_spec first f us1 d2 w1 HI1 Hf1)
    as (w2 & Hrun2 & HI2 & Hclock2 & Hft2 & Hnew2 & Hold2 & wb & Halloc & _).
  set (us2 := seq (uuid_clock w1) (ceil_div (length d2) 10)) in *.
  assert (filetable (master w2) !! f = Some (us1 ++ us2)) as Hf2.
  { rewrite Hft2. apply lookup_insert_eq. }
  exists w1, w2, us1, us2.
  split; [done|]. split; [done|]. split; [done|]. split; [by exists wb|].
  split; [done|].
  set (c1 := Client.split_chunks d1 10) in *.
  set (c2 := Client.split_chunks d2 10) in *.
  assert (concat (c1 ++ c2) = d1 ++ d2) as Hcat.
  { unfold c1, c2. by rewrite concat_app, !split_chunks_concat by lia. }
  rewrite (read_chunks_of f (us1 ++ us2) (c1 ++ c2) (d1 ++ d2)); try done.
  - destruct (decide (c1 ++ c2 = [])) as [Hnil|Hne].
    + rewrite decide_True; [done|]. by rewrite <-Hcat, Hnil.
    + rewrite decide_False; [done|]. intros Hd.
      apply app_eq_nil in Hd as [-> ->]. by apply Hne.
  - apply Forall2_app.
    + apply stored_Forall2.
      { unfold us1, c1. rewrite length_seq, split_chunks_length; [done|lia]. }
      intros j u c Hu Hc. rewrite Hold2; [by eapply Hnew1|].
      apply list_elem_of_lookup_2, elem_of_seq in Hu. lia.
    + apply stored_Forall2; [|done].
      unfold us2, c2. rewrite length_seq, split_chunks_length; [done|lia].
  - intros Hnil. by rewrite <-Hcat, Hnil.
Qed.

(** Append composition for payloads that are not both empty, in every
    reachable world. *)
Lemma append_composition files first clock cs (f : string) (d1 d2 : list byte) :
  d1 ++ d2 ≠ [] →
  let w := run_calls cs (init_world files first clock) in
  ∃ w1 w2, Client.write f d1 w = (Ok tt, w1) ∧
           Client.write_append f d2 w1 = (Ok tt, w2) ∧
           Client.read f w2 = (Ok (d1 ++ d2), w2).
Proof.
  intros Hd w.
  destruct (write_append_then_read first f d1 d2 w)
    as (w1 & w2 & us1 & us2 & Hrun1 & _ & Hrun2 & _ & _ & Hread).
  { apply run_calls_Inv. }
  exists w1, w2. split; [done|]. split; [done|].
  by rewrite Hread, decide_False.
Qed.

(** C2 fails when both payloads are empty: in the start world, [write] and
    then [write_append] of the empty payload to ["/f"] return, and the
    [read("/f")] that follows raises [TypeError] instead of returning the
    empty concatenation. *)
Theorem read_after_empty_append_raises :
  (Client.write "/f" [];; Client.write_append "/f" [];; Client.read "/f") sample_world
  = (Raise TypeError,
     exec (CWriteAppend "/f" []) (exec (CWrite "/f" []) sample_world)) ∧
  (Client.write "/f" [];; Client.write_append "/f" []) sample_world
  = (Ok tt, exec (CWriteAppend "/f" []) (exec (CWrite "/f" []) sample_world)).
Proof. by vm_compute. Qed.

(** ** Overwrite *)

(** [write(f, d1); write(f, d2)] in a world that satisfies the invariant:
    the tokens of [d1] are bound to the deleted key and to no other name,
    their payloads are still stored, [f] is bound to new tokens, and [read]
    returns [d2] unless it is empty. *)
Lemma overwrite_spec first (f : string) (d1 d2 : list byte) w :
  Inv first w →
  ∃ w1 w2 us1 us2,
    Client.write f d1 w = (Ok tt, w1) ∧
    filetable (master w1) !! f = Some us1 ∧
    Client.write f d2 w1 = (Ok tt, w2) ∧
    filetable (master w2) !! f = Some us2 ∧
    (∀ u, u ∈ us1 → u ∉ us2) ∧
    filetable (master w2) !! deleted_key (time_src w1 (time_pos w1)) f = Some us1 ∧
    (∀ g lg u, filetable (master w2) !! g = Some lg → u ∈ us1 → u ∈ lg →
       g = deleted_key (time_src w1 (time_pos w1)) f) ∧
    (∀ j u c, us1 !! j = Some u → Client.split_chunks d1 10 !! j = Some c →
       stored w2 u = Some c) ∧
    Client.read f w2 = ((if decide (d2 = []) then Raise TypeError else Ok d2), w2).
Proof.
  intros HI.
  destruct (write_spec first f d1 w HI)
    as (w1 & Hrun1 & HI1 & Hclock1 & Hft1 & Hnew1 & _).
  set (us1 := seq (uuid_clock w) (ceil_div (length d1) 10)) in *.
  assert (filetable (master w1) !! f = Some us1) as Hf1.
  { rewrite Hft1. apply lookup_insert_eq. }
  destruct (write_spec first f d2 w1 HI1)
    as (w2 & Hrun2 & HI2 & Hclock2 & Hft2 & Hnew2 & Hold2 & _).
  set (us2 := seq (uuid_clock w1) (ceil_div (length d2) 10)) in *.
  set (dk := deleted_key (time_src w1 (time_pos w1)) f).
  assert (filetable (master w2) !! f = Some us2) as Hf2.
  { rewrite Hft2. apply lookup_insert_eq. }
  assert (filetable (master w2) !! dk = Some us1) as Hdk.
  { rewrite Hft2. rewrite lookup_insert_ne by (symmetry; apply deleted_key_ne).
    unfold delete_if_exists. rewrite Hf1. simpl. apply lookup_insert_eq. }
  destruct (write_then_read first f d2 w1 HI1) as (w2' & Hrun2' & _ & Hread).
  assert (w2' = w2) as -> by congruence.
  exists w1, w2, us1, us2.
  repeat (split; [done|]).
  split; [|split; [done|split; [|split; [|done]]]].
  - intros u Hu Hu'. eapply (inv_disjoint _ _ HI2 dk f); try done.
    apply deleted_key_ne.
  - intros g lg u Hg Hu Hu'. destruct (decide (g = dk)) as [|Hne]; [done|].
    by destruct (inv_disjoint _ _ HI2 dk g us1 lg u).
  - intros j u c Hu Hc. rewrite Hold2; [by eapply Hnew1|].
    apply list_elem_of_lookup_2, elem_of_seq in Hu. lia.
Qed.

(** Overwrite for a second payload that is not empty, in every reachable
    world. *)
Lemma overwrite_nonempty files first clock cs (f : string) (d1 d2 : list byte) :
  d2 ≠ [] →
  let w := run_calls cs (init_world files first clock) in
  ∃ w1 w2, Client.write f d1 w = (Ok tt, w1) ∧
           Client.write f d2 w1 = (Ok tt, w2) ∧
           Client.read f w2 = (Ok d2, w2).
Proof.
  intros Hd w.
  destruct (overwrite_spec first f d1 d2 w)
    as (w1 & w2 & us1 & us2 & Hrun1 & _ & Hrun2 & _ & _ & _ & _ & _ & Hread).
  { apply run_calls_Inv. }
  exists w1, w2. split; [done|]. split; [done|].
  by rewrite Hread, decide_False.
Qed.

(** C8 fails when the second payload is empty: in the start world,
    [write("/f", "0123456789abc")] and then [write] of the empty payload to
    ["/f"] return, the two tokens of the first payload are bound to the
    deleted key only, and the [read("/f")] that follows raises [TypeError]
    instead of returning the empty payload. *)
Theorem read_after_empty_overwrite_raises :
  let w2 := exec (CWrite "/f" [])
              (exec (CWrite "/f" (sample_data "0123456789abc")) sample_world) in
  (Client.write "/f" (sample_data "0123456789abc");; Client.write "/f" [];;
   Client.read "/f") sample_world = (Raise TypeError, w2) ∧
  map_to_list (filetable (master w2))
  = [("/f", []); ("/hidden/deleted/1700000000.0/f", [0; 1])].
Proof. by vm_compute. Qed.

(** ** Round-robin placement *)

Lemma exec_clock first c w :
  Inv first w → uuid_clock (exec c w) = uuid_clock w + chunks_allocated c w.
Proof.
  intros HI.
  assert (num_chunkservers (master w) = 5) as HN by apply HI.
  assert (chunksize (master w) = 10) as HC by apply HI.
  assert (chunkrobin (master w) < 5) as Hr.
  { destruct HI as [_ _ _ -> _ _ _ _ _]. by apply Nat.mod_upper_bound. }
  destruct c as [f d|f d|f|f|f|f n|f n|f]; simpl.
  - destruct (write_spec first f d w HI) as (w' & -> & _ & Hclock & _).
    by rewrite HC.
  - destruct (filetable (master w) !! f) as [l|] eqn:Hf.
    + destruct (write_append_spec first f l d w HI Hf) as (w' & -> & _ & Hclock & _).
      rewrite bool_decide_true by eauto. by rewrite HC.
    + rewrite write_append_missing by done.
      rewrite bool_decide_false by apply is_Some_None. simpl. lia.
  - rewrite read_only_read. lia.
  - lia.
  - unfold Client.delete. destruct (filetable (master w) !! f) as [l|] eqn:Hf.
    + rewrite (delete_spec _ _ _ Hf). simpl. lia.
    + rewrite delete_missing by done. simpl. lia.
  - by destruct (alloc_spec f n w) as (ct & -> & Hct); [lia..|].
  - destruct (filetable (master w) !! f) as [l|] eqn:Hf.
    + destruct (alloc_append_spec f l n w) as (ct & -> & Hct); [lia..|done|].
      by rewrite bool_decide_true by eauto.
    + rewrite alloc_append_missing by done.
      rewrite bool_decide_false by apply is_Some_None. simpl. lia.
  - destruct (filetable (master w) !! f) as [l|] eqn:Hf.
    + rewrite (delete_spec _ _ _ Hf). simpl. lia.
    + rewrite delete_missing by done. simpl. lia.
Qed.

Lemma run_calls_clock first cs : ∀ w,
  Inv first w → uuid_clock (run_calls cs w) = uuid_clock w + allocated_by cs w.
Proof.
  induction cs as [|c cs IH]; intros w HI; simpl.
  - lia.
  - rewrite IH by by apply exec_spec.
    rewrite (exec_clock first) by done. lia.
Qed.

(** C5: in every reachable world the cursor is the number of chunks allocated
    since the master was made, modulo the pool size: it is never reset.  The
    [k]-th chunk allocated since then sits on server [k mod N], whatever call
    allocated it.  Every further call moves the cursor by the number of
    chunks it allocates, [alloc] and [alloc_append] alike; and
    [alloc_chunks n] places its [i]-th new chunk on server
    [(cursor + i) mod N]. *)
Theorem round_robin_placement files first clock cs :
  let w0 := init_world files first clock in
  let w := run_calls cs w0 in
  let N := num_chunkservers (master w) in
  N = 5 ∧
  chunkrobin (master w) = allocated_by cs w0 mod N ∧
  (∀ k, k < allocated_by cs w0 →
     chunktable (master w) !! (first + k) = Some (k mod N)) ∧
  (∀ c, chunkrobin (master (exec c w))
        = (chunkrobin (master w) + chunks_allocated c w) mod N) ∧
  (∀ n, ∃ w',
     Master.alloc_chunks n w = (Ok (seq (uuid_clock w) n), w') ∧
     chunkrobin (master w') = (chunkrobin (master w) + n) mod N ∧
     ∀ i, i < n →
       chunktable (master w') !! (uuid_clock w + i)
       = Some ((chunkrobin (master w) + i) mod N)).
Proof.
  intros w0 w N.
  pose proof (run_calls_Inv files first clock cs) as HI. fold w0 w in HI.
  pose proof (run_calls_clock first cs w0 (Inv_init _ _ _)) as Hclock.
  fold w in Hclock. simpl in Hclock.
  assert (N = 5) as HN by apply HI.
  split; [done|]. split; [|split; [|split]].
  - rewrite (inv_robin _ _ HI), HN. f_equal. lia.
  - intros k Hk. rewrite (inv_chunktable _ _ HI), HN.
    rewrite decide_True by lia. do 2 f_equal. lia.
  - intros c. destruct (exec_spec first c w HI) as [HI' _].
    rewrite (inv_robin _ _ HI'), (inv_robin _ _ HI), HN.
    rewrite (exec_clock first) by done.
    rewrite Nat.Div0.add_mod_idemp_l. f_equal.
    pose proof (inv_first _ _ HI). lia.
  - intros n. destruct (alloc_chunks_loop_spec n [] w) as (ct & Hrun & Hct).
    { fold N. lia. }
    { fold N. rewrite (inv_robin _ _ HI), HN. by apply Nat.mod_upper_bound. }
    exists (after_alloc ct n w). split; [exact Hrun|]. split; [done|].
    intros i Hi. simpl. rewrite Hct. rewrite decide_True by lia.
    fold N. do 3 f_equal. lia.
Qed.

(** ** Placement entries *)

(** C9: in every world reached by the master's and the client's calls, every
    chunk identifier in the sequence of a file-table entry, live or renamed
    by a delete, has one placement entry, on a server of the pool; and that
    entry is the same after any further calls. *)
Theorem placement_exists_and_is_stable files first clock cs cs'
    (f : string) (l : list nat) (u : nat) :
  let w := run_calls cs (init_world files first clock) in
  let w' := run_calls cs' w in
  filetable (master w) !! f = Some l → u ∈ l →
  ∃ loc, chunktable (master w) !! u = Some loc ∧
         (∀ loc', chunktable (master w) !! u = Some loc' → loc' = loc) ∧
         loc < num_chunkservers (master w) ∧
         is_Some (chunkservers (master w) !! loc) ∧
         chunktable (master w') !! u = Some loc.
Proof.
  intros w w' Hf Hu.
  pose proof (run_calls_Inv files first clock cs) as HI. fold w in HI.
  destruct (run_calls_spec first cs' w HI) as [HI' Hle]. fold w' in HI', Hle.
  pose proof (inv_files _ _ HI _ _ _ Hf Hu) as Hrange.
  assert (chunktable (master w) !! u = Some ((u - first) mod 5)) as Hloc.
  { rewrite (inv_chunktable _ _ HI). by rewrite decide_True. }
  assert ((u - first) mod 5 < 5) as Hlt by by apply Nat.mod_upper_bound.
  exists ((u - first) mod 5). split; [done|]. split; [congruence|].
  split; [by rewrite (inv_servers _ _ HI)|]. split.
  - destruct (inv_pool _ _ HI _ Hlt) as [server ->]. by eexists.
  - by apply (Inv_chunktable_stable first w w').
Qed.

Lemma placement_exists_and_is_stable_witness :
  filetable (master (run_calls [CWrite "/a" (sample_data "0123456789abc")]
                       (init_world ∅ 0 sample_clock))) !! "/a" = Some [0; 1] ∧
  1 ∈ [0; 1] ∧
  ∃ loc,
    chunktable (master (run_calls [CDelete "/a"; MAlloc "/b" 7]
                          (run_calls [CWrite "/a" (sample_data "0123456789abc")]
                             (init_world ∅ 0 sample_clock)))) !! 1 = Some loc.
Proof.
  assert (filetable (master (run_calls [CWrite "/a" (sample_data "0123456789abc")]
                               (init_world ∅ 0 sample_clock))) !! "/a"
          = Some [0; 1]) as Hf by (vm_compute; reflexivity).
  assert (1 ∈ [0; 1]) as Hu by (apply list_elem_of_In; simpl; auto).
  split; [exact Hf|]. split; [exact Hu|].
  destruct (placement_exists_and_is_stable ∅ 0 sample_clock
              [CWrite "/a" (sample_data "0123456789abc")]
              [CDelete "/a"; MAlloc "/b" 7] "/a" [0; 1] 1 Hf Hu)
    as (loc & _ & _ & _ & _ & Hloc').
  exists loc. exact Hloc'.
Defined.

(** ** Chunk splitting *)

(** C3: a payload is cut into consecutive slices, slice [i] being the [C]
    bytes from offset [i * C] (fewer at the end of the payload): every slice
    but the last has [C] bytes, the last has 1 to [C], and together they are
    the payload.  There are [ceil(L / C)] slices, as many as [num_chunks]
    computes and as identifiers the master's allocation call returns; and
    after [write] (or [write_append] to an existing file) slice [i] is the
    content stored for identifier [i], on the server the master resolves
    that identifier to. *)
Theorem chunk_splitting files first clock cs (f : string) (d : list byte) :
  let w := run_calls cs (init_world files first clock) in
  let C := chunksize (master w) in
  let chunks := Client.split_chunks d C in
  concat chunks = d ∧
  (∀ i, i < length chunks → chunks !! i = Some (take C (drop (i * C) d))) ∧
  (∀ i c, chunks !! i = Some c →
     1 ≤ length c ≤ C ∧ (S i < length chunks → length c = C)) ∧
  length chunks = ceil_div (length d) C ∧
  Client.num_chunks (length d) w = (Ok (length chunks), w) ∧
  (∃ us wb w',
     Master.alloc f (length chunks) (delete_if_exists f w) = (Ok us, wb) ∧
     length us = length chunks ∧
     Client.write_chunks us d wb = (Ok tt, w') ∧
     Client.write f d w = (Ok tt, w') ∧
     filetable (master w') !! f = Some us ∧
     ∀ i u c, us !! i = Some u → chunks !! i = Some c → stored w' u = Some c) ∧
  (∀ l, filetable (master w) !! f = Some l →
     ∃ us wb w',
       Master.alloc_append f (length chunks) w = (Ok us, wb) ∧
       length us = length chunks ∧
       Client.write_chunks us d wb = (Ok tt, w') ∧
       Client.write_append f d w = (Ok tt, w') ∧
       filetable (master w') !! f = Some (l ++ us) ∧
       ∀ i u c, us !! i = Some u → chunks !! i = Some c → stored w' u = Some c).
Proof.
  intros w C chunks.
  pose proof (run_calls_Inv files first clock cs) as HI. fold w in HI.
  assert (C = 10) as HC by apply HI.
  assert (length chunks = ceil_div (length d) 10) as Hlen.
  { unfold chunks. rewrite HC. apply split_chunks_length. lia. }
  split. { apply split_chunks_concat. lia. }
  split.
  { intros i Hi. apply lookup_lt_is_Some in Hi as [c Hc].
    pose proof Hc as Hc'. unfold chunks in Hc'.
    rewrite split_chunks_lookup in Hc' by lia.
    case_decide; [|done]. by rewrite Hc. }
  split.
  { intros i c Hc.
    destruct (split_chunks_sizes d C i c) as (? & ? & _); [lia|done|done]. }
  split. { by rewrite HC. }
  split. { rewrite Hlen. rewrite <-HC. apply num_chunks_spec. fold C. lia. }
  split.
  - destruct (write_spec first f d w HI)
      as (w' & Hrun & _ & _ & Hft & Hnew & _ & wb & Halloc & Hstore).
    exists (seq (uuid_clock w) (ceil_div (length d) 10)), wb, w'.
    rewrite Hlen. split; [done|]. split; [by rewrite length_seq|].
    split; [done|]. split; [done|]. split.
    + rewrite Hft. apply lookup_insert_eq.
    + unfold chunks. by rewrite HC.
  - intros l Hf.
    destruct (write_append_spec first f l d w HI Hf)
      as (w' & Hrun & _ & _ & Hft & Hnew & _ & wb & Halloc & Hstore).
    exists (seq (uuid_clock w) (ceil_div (length d) 10)), wb, w'.
    rewrite Hlen. split; [done|]. split; [by rewrite length_seq|].
    split; [done|]. split; [done|]. split.
    + rewrite Hft. apply lookup_insert_eq.
    + unfold chunks. by rewrite HC.
Qed.

(** * More properties of the code *)

(** ** The chunkserver alone *)


(** ** Lookups *)

(** X2: [read] and [exists], and the master's [get_chunkloc] and
    [get_chunkuuids], leave every part of the state as it was, whether they
    return or raise. *)
Theorem lookups_change_nothing (f : string) (u : nat) (w : World) :
  (Client.read f w).2 = w ∧
  (Client.exists_ f w).2 = w ∧
  (Master.get_chunkloc u w).2 = w ∧
  (Master.get_chunkuuids f w).2 = w.
Proof.
  split; [apply read_only_read|]. split; [done|]. split.
  - apply read_only_bind; [done|intros m]. apply read_only_getitem.
  - apply read_only_bind; [done|intros m]. apply read_only_getitem.
Qed.

(** ** Missing names at the master *)

(** X3: for a name that is not in the file table, [delete] (the client's
    and the master's: the client does not check first) and the master's
    [alloc_append] raise [KeyError] with that name, and the state is as
    before: nothing was renamed, no token drawn, the cursor not moved. *)
Theorem master_calls_on_missing_file (w : World) (f : string) (n : nat) :
  filetable (master w) !! f = None →
  Client.delete f w = (Raise (KeyError (KFile f)), w) ∧
  Master.delete f w = (Raise (KeyError (KFile f)), w) ∧
  Master.alloc_append f n w = (Raise (KeyError (KFile f)), w) ∧
  Master.get_chunkuuids f w = (Raise (KeyError (KFile f)), w).
Proof.
  intros Hf. split; [by apply delete_missing|]. split; [by apply delete_missing|].
  split; [by apply alloc_append_missing|].
  unfold Master.get_chunkuuids, get_master, bind. by apply getitem_raise.
Qed.

Lemma master_calls_on_missing_file_witness :
  filetable (master sample_world) !! "/a" = None ∧
  Master.alloc_append "/a" 3 sample_world
  = (Raise (KeyError (KFile "/a")), sample_world).
Proof.
  assert (filetable (master sample_world) !! "/a" = None) as Hf by reflexivity.
  split; [exact Hf|].
  by destruct (master_calls_on_missing_file sample_world "/a" 3 Hf) as (_ & _ & -> & _).
Defined.

(** ** What [read] returns *)

Lemma read_as_loop filename chunkuuids w :
  filetable (master w) !! filename = Some chunkuuids →
  Client.read filename w
  = (chunks <- Client.read_loop chunkuuids [];; reduce (λ x y, x ++ y) chunks) w.
Proof.
  intros Hf. unfold Client.read.
  rewrite (bind_ok _ _ _ _ _ (exists_spec filename w)).
  rewrite bool_decide_true by eauto. simpl.
  rewrite (bind_ok _ _ _ tt w) by done.
  unfold Master.get_chunkuuids, get_master.
  unfold bind at 1. unfold bind at 1. by rewrite (getitem_ok _ _ _ _ _ Hf).
Qed.

Lemma read_loop_cons u us acc w :
  Client.read_loop (u :: us) acc w =
    match chunktable (master w) !! u with
    | None => (Raise (KeyError (KUuid u)), w)
    | Some loc =>
        match chunkservers (master w) !! loc with
        | None => (Raise (KeyError (KLoc loc)), w)
        | Some server =>
            match fs w !! Chunkserver.chunk_filename server u with
            | None => (Raise (IOError (Chunkserver.chunk_filename server u)), w)
            | Some c => Client.read_loop us (acc ++ [c]) w
            end
        end
    end.
Proof.
  simpl. unfold Master.get_chunkloc, Master.get_chunkservers, Chunkserver.read.
  unfold bind, get_master, getitem, ret, raise, file_read. simpl.
  destruct (chunktable (master w) !! u) as [loc|]; simpl; [|done].
  destruct (chunkservers (master w) !! loc) as [server|]; simpl; [|done].
  by destruct (fs w !! Chunkserver.chunk_filename server u).
Qed.

Lemma read_loop_inv chunkuuids : ∀ acc w r w',
  Client.read_loop chunkuuids acc w = (Ok r, w') →
  ∃ chunks, r = acc ++ chunks ∧
            Forall2 (λ u c, stored w u = Some c) chunkuuids chunks.
Proof.
  induction chunkuuids as [|u us IH]; intros acc w r w' Hrun.
  - injection Hrun as <- _. exists []. by rewrite app_nil_r.
  - rewrite read_loop_cons in Hrun.
    destruct (chunktable (master w) !! u) as [loc|] eqn:Hloc; [|done].
    destruct (chunkservers (master w) !! loc) as [server|] eqn:Hserver; [|done].
    destruct (fs w !! Chunkserver.chunk_filename server u) as [c|] eqn:Hc; [|done].
    destruct (IH _ _ _ _ Hrun) as (chunks & -> & Hall).
    exists (c :: chunks). split; [by rewrite <-app_assoc|].
    constructor; [|done]. unfold stored, chunk_path. by rewrite Hloc, Hserver.
Qed.

(** The result of the loop depends on the chunk table, the chunkservers and
    the files only. *)
Lemma read_loop_ext chunkuuids : ∀ acc w1 w2,
  chunktable (master w1) = chunktable (master w2) →
  chunkservers (master w1) = chunkservers (master w2) →
  fs w1 = fs w2 →
  (Client.read_loop chunkuuids acc w1).1 = (Client.read_loop chunkuuids acc w2).1.
Proof.
  induction chunkuuids as [|u us IH]; intros acc w1 w2 Hct Hpool Hfs; [done|].
  rewrite !read_loop_cons, Hct.
  destruct (chunktable (master w2) !! u) as [loc|]; [|done].
  rewrite Hpool.
  destruct (chunkservers (master w2) !! loc) as [server|]; [|done].
  rewrite Hfs.
  destruct (fs w2 !! Chunkserver.chunk_filename server u) as [c|]; [|done].
  by apply IH.
Qed.

(** X4: [read(f)] returns [data] exactly when [f] is bound to a chunk list
    that is not empty, every chunk of the list has its bytes stored on the
    server the master resolves it to, and these bytes, taken in the order of
    the list, are [data]. *)
Theorem read_returns_iff (w : World) (f : string) (data : list byte) :
  (Client.read f w).1 = Ok data ↔
  content w f = Some data ∧ filetable (master w) !! f ≠ Some [].
Proof.
  unfold content. split.
  - intros Hread.
    destruct (filetable (master w) !! f) as [l|] eqn:Hf.
    + rewrite (read_as_loop _ _ _ Hf) in Hread. unfold bind in Hread.
      destruct (Client.read_loop l [] w) as [[chunks|e] w'] eqn:Hloop; [|done].
      apply read_loop_inv in Hloop as (chunks' & -> & Hall). simpl in *.
      rewrite (mapM_Some_2 _ _ _ Hall).
      destruct chunks' as [|c cs]; [done|]. simpl in Hread.
      injection Hread as <-. rewrite foldl_app_concat. split; [done|].
      intros [= ->]. by apply Forall2_nil_inv_l in Hall.
    + by rewrite read_missing in Hread.
  - intros [Hcontent Hne].
    destruct (filetable (master w) !! f) as [l|] eqn:Hf; [|done].
    destruct (mapM (stored w) l) as [chunks|] eqn:Hchunks; [|done].
    injection Hcontent as <-. apply mapM_Some_1 in Hchunks.
    rewrite (read_spec _ _ _ _ Hf Hchunks). simpl.
    destruct chunks; [|done].
    apply Forall2_nil_inv_r in Hchunks as ->. done.
Qed.

(** X5: when a chunk of the file has no file on its server (the master
    allocated it and nothing was stored), [read] raises [IOError] for the
    first such chunk in sequence order, naming its path; the chunks before it
    were read, and nothing is changed. *)
Theorem read_missing_payload (w : World) (f : string) (before after : list nat)
    (u : nat) (chunks : list (list byte)) (path : string) :
  filetable (master w) !! f = Some (before ++ u :: after) →
  Forall2 (λ u c, stored w u = Some c) before chunks →
  chunk_path (master w) u = Some path →
  fs w !! path = None →
  Client.read f w = (Raise (IOError path), w).
Proof.
  intros Hf Hbefore Hpath Hnone.
  rewrite (read_as_loop _ _ _ Hf).
  assert (∀ acc, Client.read_loop (before ++ u :: after) acc w
                 = (Raise (IOError path), w)) as Hloop.
  { clear Hf. induction Hbefore as [|u0 c0 us cs Hc _ IH]; intros acc.
    - simpl app. rewrite read_loop_cons. unfold chunk_path in Hpath.
      destruct (chunktable (master w) !! u) as [loc|]; [|done].
      destruct (chunkservers (master w) !! loc) as [server|]; [|done].
      injection Hpath as <-. by rewrite Hnone.
    - simpl app. rewrite read_loop_cons. unfold stored, chunk_path in Hc.
      destruct (chunktable (master w) !! u0) as [loc|]; [|done].
      destruct (chunkservers (master w) !! loc) as [server|]; [|done].
      rewrite Hc. apply IH. }
  unfold bind. by rewrite Hloop.
Qed.

Lemma read_missing_payload_witness :
  filetable (master (exec (MAlloc "/a" 2) sample_world)) !! "/a"
    = Some ([] ++ 0 :: [1]) ∧
  Client.read "/a" (exec (MAlloc "/a" 2) sample_world)
  = (Raise (IOError "/tmp/gfs/chunks/0/0.gfs"), exec (MAlloc "/a" 2) sample_world).
Proof.
  assert (filetable (master (exec (MAlloc "/a" 2) sample_world)) !! "/a"
          = Some ([] ++ 0 :: [1])) as Hf by (vm_compute; reflexivity).
  split; [exact Hf|].
  apply (read_missing_payload _ "/a" [] [1] 0 [] "/tmp/gfs/chunks/0/0.gfs" Hf).
  - constructor.
  - vm_compute; reflexivity.
  - vm_compute; reflexivity.
Defined.

(** X6: after [delete(f)] of a file in the table, [read] of the renamed key
    returns exactly what [read(f)] returned just before the delete, bytes or
    exception; the content is now under the renamed key and no longer under
    [f]. *)
Theorem deleted_file_reads_as_before (w : World) (f : string) (l : list nat) :
  filetable (master w) !! f = Some l →
  let dk := "/hidden/deleted/" +:+ time_src w (time_pos w) +:+ f in
  ∃ w', Client.delete f w = (Ok tt, w') ∧
        (Client.read dk w').1 = (Client.read f w).1 ∧
        content w' dk = content w f ∧
        content w' f = None.
Proof.
  intros Hf dk. exists (after_delete f l w).
  assert (filetable (master (after_delete f l w)) !! dk = Some l) as Hdk.
  { simpl. apply lookup_insert_eq. }
  assert (filetable (master (after_delete f l w)) !! f = None) as Hgone.
  { simpl. rewrite lookup_insert_ne by apply deleted_key_ne.
    apply lookup_delete_eq. }
  split; [by apply delete_spec|]. split; [|split].
  - rewrite (read_as_loop _ _ _ Hdk), (read_as_loop _ _ _ Hf). unfold bind.
    pose proof (read_loop_ext l [] (after_delete f l w) w eq_refl eq_refl eq_refl)
      as Hsame.
    pose proof (read_only_read_loop l [] (after_delete f l w)) as Hw1.
    pose proof (read_only_read_loop l [] w) as Hw2.
    destruct (Client.read_loop l [] (after_delete f l w)) as [r1 w1],
             (Client.read_loop l [] w) as [r2 w2].
    simpl in *. subst. destruct r2 as [[|c cs]|e]; done.
  - unfold content. by rewrite Hdk, Hf.
  - unfold content. by rewrite Hgone.
Qed.

Lemma deleted_file_reads_as_before_witness :
  filetable (master (exec (CWrite "/a" (sample_data "0123456789abc")) sample_world))
    !! "/a" = Some [0; 1] ∧
  ∃ w', (Client.read "/hidden/deleted/1700000000.0/a" w').1
        = (Client.read "/a"
             (exec (CWrite "/a" (sample_data "0123456789abc")) sample_world)).1.
Proof.
  assert (filetable (master (exec (CWrite "/a" (sample_data "0123456789abc"))
                               sample_world)) !! "/a" = Some [0; 1])
    as Hf by (vm_compute; reflexivity).
  split; [exact Hf|].
  destruct (deleted_file_reads_as_before _ "/a" [0; 1] Hf) as (w' & _ & Hread & _).
  exists w'. exact Hread.
Defined.

(** ** Files do not share chunks *)

(** X7: in every reachable world no chunk identifier occurs twice in the
    sequence of a file-table entry, and none occurs in the sequences of two
    entries, live or renamed by a delete. *)
Theorem no_chunk_sharing files first clock cs :
  let w := run_calls cs (init_world files first clock) in
  (∀ f l, filetable (master w) !! f = Some l → NoDup l) ∧
  (∀ f g lf lg u,
     filetable (master w) !! f = Some lf → filetable (master w) !! g = Some lg →
     u ∈ lf → u ∈ lg → f = g).
Proof.
  intros w.
  pose proof (run_calls_Inv files first clock cs) as HI. fold w in HI.
  split; [apply (inv_nodup _ _ HI)|].
  intros f g lf lg u Hf Hg Hu Hu'.
  destruct (decide (f = g)) as [|Hne]; [done|].
  by destruct (inv_disjoint _ _ HI f g lf lg u).
Qed.

(** ** The content of files *)

Lemma mapM_ext_in {A B} (f g : A → option B) (l : list A) :
  (∀ x, x ∈ l → f x = g x) → mapM f l = mapM g l.
Proof.
  induction l as [|x l IH]; intros Hfg; [done|].
  simpl. rewrite (Hfg x) by left.
  rewrite IH; [done|]. intros y Hy. apply Hfg. by right.
Qed.

Lemma content_ext w w' f :
  filetable (master w') !! f = filetable (master w) !! f →
  (∀ l u, filetable (master w) !! f = Some l → u ∈ l → stored w' u = stored w u) →
  content w' f = content w f.
Proof.
  intros Hft Hstored. unfold content. rewrite Hft.
  destruct (filetable (master w) !! f) as [l|] eqn:Hf; [|done].
  by rewrite (mapM_ext_in (stored w') (stored w)) by eauto.
Qed.

Lemma content_stored w f (us : list nat) (chunks : list (list byte)) :
  filetable (master w) !! f = Some us →
  Forall2 (λ u c, stored w u = Some c) us chunks →
  content w f = Some (concat chunks).
Proof.
  intros Hf Hall. unfold content. by rewrite Hf, (mapM_Some_2 _ _ _ Hall).
Qed.

(** X8: in every reachable world [write(f, d)] returns; afterwards [f]
    exists and its content is [d]; and every other name, except the key [f]
    was renamed to if it existed, is bound to the same chunk identifiers and
    has the same content as before. *)
Theorem write_replaces_one_file files first clock cs (f : string) (d : list byte) :
  let w := run_calls cs (init_world files first clock) in
  ∃ w', Client.write f d w = (Ok tt, w') ∧
        Client.exists_ f w' = (Ok true, w') ∧
        content w' f = Some d ∧
        ∀ g, g ≠ f → g ≠ deleted_key (time_src w (time_pos w)) f →
          filetable (master w') !! g = filetable (master w) !! g ∧
          content w' g = content w g.
Proof.
  intros w.
  pose proof (run_calls_Inv files first clock cs) as HI. fold w in HI.
  destruct (write_spec first f d w HI)
    as (w' & Hrun & HI' & _ & Hft & Hnew & Hold & _).
  set (us := seq (uuid_clock w) (ceil_div (length d) 10)) in *.
  assert (filetable (master w') !! f = Some us) as Hf.
  { rewrite Hft. apply lookup_insert_eq. }
  exists w'. split; [done|]. split; [|split].
  - rewrite exists_spec, Hf. by rewrite bool_decide_true by eauto.
  - rewrite (content_stored w' f us (Client.split_chunks d 10) Hf).
    + by rewrite split_chunks_concat by lia.
    + apply stored_Forall2; [|done].
      unfold us. rewrite length_seq, split_chunks_length; [done|lia].
  - intros g Hgf Hgdk.
    assert (filetable (master w') !! g = filetable (master w) !! g) as Hg.
    { rewrite Hft, lookup_insert_ne by done. unfold delete_if_exists.
      destruct (filetable (master w) !! f); [|done]. simpl.
      rewrite lookup_insert_ne by done. by rewrite lookup_delete_ne. }
    split; [done|]. apply content_ext; [done|].
    intros l u Hl Hu. apply Hold.
    pose proof (inv_files _ _ HI _ _ _ Hl Hu). lia.
Qed.

(** X9: in every reachable world, if the content of [f] is [data] (all its
    chunks are stored), then [write_append(f, d)] returns and the content of
    [f] is [data ++ d] afterwards, whatever calls made the file; every other
    name is bound to the same chunk identifiers and has the same content as
    before. *)
Theorem append_extends_content files first clock cs (f : string) (d data : list byte) :
  let w := run_calls cs (init_world files first clock) in
  content w f = Some data →
  ∃ w', Client.write_append f d w = (Ok tt, w') ∧
        content w' f = Some (data ++ d) ∧
        ∀ g, g ≠ f →
          filetable (master w') !! g = filetable (master w) !! g ∧
          content w' g = content w g.
Proof.
  intros w Hcontent.
  pose proof (run_calls_Inv files first clock cs) as HI. fold w in HI.
  unfold content in Hcontent.
  destruct (filetable (master w) !! f) as [l|] eqn:Hf; [|done].
  destruct (mapM (stored w) l) as [chunks|] eqn:Hchunks; [|done].
  injection Hcontent as <-. apply mapM_Some_1 in Hchunks.
  destruct (write_append_spec first f l d w HI Hf)
    as (w' & Hrun & HI' & _ & Hft & Hnew & Hold & _).
  set (us := seq (uuid_clock w) (ceil_div (length d) 10)) in *.
  assert (filetable (master w') !! f = Some (l ++ us)) as Hf'.
  { rewrite Hft. apply lookup_insert_eq. }
  exists w'. split; [done|]. split.
  - rewrite (content_stored w' f (l ++ us) (chunks ++ Client.split_chunks d 10) Hf').
    + by rewrite concat_app, split_chunks_concat by lia.
    + apply Forall2_app.
      * apply stored_Forall2; [by eapply Forall2_length|].
        intros j u c Hu Hc. rewrite Hold.
        -- by apply (Forall2_lookup_lr _ _ _ _ _ _ Hchunks Hu Hc).
        -- apply list_elem_of_lookup_2 in Hu.
           pose proof (inv_files _ _ HI _ _ _ Hf Hu). lia.
      * apply stored_Forall2; [|done].
        unfold us. rewrite length_seq, split_chunks_length; [done|lia].
  - intros g Hgf.
    assert (filetable (master w') !! g = filetable (master w) !! g) as Hg.
    { by rewrite Hft, lookup_insert_ne. }
    split; [done|]. apply content_ext; [done|].
    intros l' u Hl Hu. apply Hold.
    pose proof (inv_files _ _ HI _ _ _ Hl Hu). lia.
Qed.

Lemma append_extends_content_witness :
  content (run_calls [CWrite "/a" (sample_data "hello")]
             (init_world ∅ 0 sample_clock)) "/a"
    = Some (sample_data "hello") ∧
  ∃ w', content w' "/a" = Some (sample_data "hello" ++ sample_data ", world").
Proof.
  assert (content (run_calls [CWrite "/a" (sample_data "hello")]
                     (init_world ∅ 0 sample_clock)) "/a"
          = Some (sample_data "hello")) as Hc by (vm_compute; reflexivity).
  split; [exact Hc|].
  destruct (append_extends_content ∅ 0 sample_clock
              [CWrite "/a" (sample_data "hello")] "/a"
              (sample_data ", world") (sample_data "hello") Hc)
    as (w' & _ & Hc' & _).
  exists w'. exact Hc'.
Defined.

(** ** Names that are lost *)

(** X10: when the key a delete renames [f] to is already bound (an earlier
    delete of [f] at the same clock reading), [delete(f)] rebinds it: the
    chunk identifiers it had are then in no file-table entry, although their
    placements and payloads stay. *)
Theorem delete_overwrites_deleted_key files first clock cs (f : string)
    (l old : list nat) :
  let w := run_calls cs (init_world files first clock) in
  let dk := "/hidden/deleted/" +:+ time_src w (time_pos w) +:+ f in
  filetable (master w) !! f = Some l →
  filetable (master w) !! dk = Some old →
  ∃ w', Client.delete f w = (Ok tt, w') ∧
        filetable (master w') !! dk = Some l ∧
        ∀ u, u ∈ old →
          (∀ g lg, filetable (master w') !! g = Some lg → u ∉ lg) ∧
          chunktable (master w') !! u = chunktable (master w) !! u ∧
          stored w' u = stored w u.
Proof.
  intros w dk Hf Hdk.
  pose proof (run_calls_Inv files first clock cs) as HI. fold w in HI.
  assert (dk ≠ f) as Hne by apply deleted_key_ne.
  exists (after_delete f l w). split; [by apply delete_spec|].
  split; [apply lookup_insert_eq|].
  intros u Hu. split; [|done].
  intros g lg. simpl. fold (deleted_key (time_src w (time_pos w)) f).
  change (deleted_key (time_src w (time_pos w)) f) with dk.
  rewrite lookup_insert. case_decide as Hg.
  - intros [= <-]. by apply (inv_disjoint _ _ HI dk f old l u).
  - rewrite lookup_delete. case_decide; [done|]. intros Hlg.
    by apply (inv_disjoint _ _ HI dk g old lg u).
Qed.

Lemma delete_overwrites_deleted_key_witness :
  filetable (master (run_calls
    [CWrite "/a" (sample_data "0123456789abc"); CDelete "/a";
     CWrite "/a" (sample_data "xyz")] (init_world ∅ 0 sample_clock)))
    !! "/a" = Some [2] ∧
  ∃ w', filetable (master w') !! "/hidden/deleted/1700000000.0/a" = Some [2].
Proof.
  assert (filetable (master (run_calls
            [CWrite "/a" (sample_data "0123456789abc"); CDelete "/a";
             CWrite "/a" (sample_data "xyz")] (init_world ∅ 0 sample_clock)))
            !! "/a" = Some [2]) as Hf by (vm_compute; reflexivity).
  split; [exact Hf|].
  destruct (delete_overwrites_deleted_key ∅ 0 sample_clock
              [CWrite "/a" (sample_data "0123456789abc"); CDelete "/a";
               CWrite "/a" (sample_data "xyz")] "/a" [2] [0; 1] Hf)
    as (w' & _ & Hdk & _).
  { vm_compute; reflexivity. }
  exists w'. exact Hdk.
Defined.

(** X11: the master's [alloc] on a name that is already bound replaces the
    binding without renaming it (only the client's [write] deletes first):
    it returns [n] new identifiers, binds the name to them, and the
    identifiers the name had are then in no file-table entry, while their
    placements stay in the chunk table. *)
Theorem alloc_replaces_binding files first clock cs (f : string) (n : nat)
    (l : list nat) :
  let w := run_calls cs (init_world files first clock) in
  filetable (master w) !! f = Some l →
  ∃ us w', Master.alloc f n w = (Ok us, w') ∧
           length us = n ∧
           filetable (master w') !! f = Some us ∧
           ∀ u, u ∈ l →
             (∀ g lg, filetable (master w') !! g = Some lg → u ∉ lg) ∧
             chunktable (master w') !! u = chunktable (master w) !! u.
Proof.
  intros w Hf.
  pose proof (run_calls_Inv files first clock cs) as HI. fold w in HI.
  assert (num_chunkservers (master w) = 5) as HN by apply HI.
  assert (chunkrobin (master w) < 5) as Hr.
  { rewrite (inv_robin _ _ HI). by apply Nat.mod_upper_bound. }
  destruct (alloc_spec f n w) as (ct & Hrun & Hct); [lia..|].
  eexists _, _. split; [exact Hrun|]. split; [apply length_seq|].
  split; [apply lookup_insert_eq|].
  intros u Hu. pose proof (inv_files _ _ HI _ _ _ Hf Hu) as Hrange. split.
  - intros g lg. simpl. rewrite lookup_insert. case_decide as Hg.
    + intros [= <-] Hin. apply elem_of_seq in Hin. lia.
    + intros Hlg. by apply (inv_disjoint _ _ HI f g l lg u).
  - simpl. rewrite Hct. by rewrite decide_False by lia.
Qed.

Lemma alloc_replaces_binding_witness :
  filetable (master (run_calls [CWrite "/a" (sample_data "0123456789abc")]
                       (init_world ∅ 0 sample_clock))) !! "/a" = Some [0; 1] ∧
  ∃ us w', filetable (master w') !! "/a" = Some us ∧ length us = 3.
Proof.
  assert (filetable (master (run_calls [CWrite "/a" (sample_data "0123456789abc")]
                               (init_world ∅ 0 sample_clock))) !! "/a"
          = Some [0; 1]) as Hf by (vm_compute; reflexivity).
  split; [exact Hf|].
  destruct (alloc_replaces_binding ∅ 0 sample_clock
              [CWrite "/a" (sample_data "0123456789abc")] "/a" 3 [0; 1] Hf)
    as (us & w' & _ & Hlen & Hus & _).
  exists us, w'. by split.
Defined.

(** ** The chunkservers' own tables *)

Lemma lookup_init_chunkservers n loc :
  Master.init_chunkservers n !! loc =
    if decide (loc < n) then Some (Chunkserver.init loc) else None.
Proof.
  induction n as [|n IH]; simpl.
  - by rewrite lookup_empty.
  - rewrite lookup_insert. destruct (decide (n = loc)) as [->|Hn].
    + by rewrite decide_True by lia.
    + rewrite IH. repeat case_decide; try done; lia.
Qed.

Lemma pool_consistent_init files first clock :
  pool_consistent (init_world files first clock).
Proof.
  intros loc cs Hcs.
  change (Master.init_chunkservers 5 !! loc = Some cs) in Hcs.
  rewrite lookup_init_chunkservers in Hcs.
  case_decide; [|done]. injection Hcs as <-.
  split; [done|]. split; [done|]. split; [done|].
  intros u p. simpl. by rewrite lookup_empty.
Qed.

(** Consistency only looks at the pool, the files and the chunk table, and
    survives a chunk table that grows. *)
Lemma pool_consistent_ext w w' :
  num_chunkservers (master w') = num_chunkservers (master w) →
  chunkservers (master w') = chunkservers (master w) →
  fs w' = fs w →
  (∀ u loc, chunktable (master w) !! u = Some loc →
            chunktable (master w') !! u = Some loc) →
  pool_consistent w → pool_consistent w'.
Proof.
  intros HN Hpool Hfs Hct Hcons loc cs. rewrite Hpool, HN, Hfs. intros Hcs.
  destruct (Hcons loc cs Hcs) as (? & ? & ? & Hlisted).
  repeat (split; [done|]). intros u p Hup.
  destruct (Hlisted u p Hup) as (? & ? & ?). auto.
Qed.

Lemma write_chunk_cases chunkuuids chunks i w :
  Client.write_chunk chunkuuids chunks i w =
    match chunkuuids !! i with
    | None => (Raise IndexError, w)
    | Some u =>
        match chunktable (master w) !! u with
        | None => (Raise (KeyError (KUuid u)), w)
        | Some loc =>
            match chunkservers (master w) !! loc with
            | None => (Raise (KeyError (KLoc loc)), w)
            | Some cs =>
                match chunks !! i with
                | None => (Raise IndexError, w)
                | Some c =>
                    (Ok tt,
                     after_store
                       (<[Chunkserver.chunk_filename cs u := c]> (fs w))
                       (<[loc := mkChunkserver (cs_chunkloc cs)
                                   (<[u := Chunkserver.chunk_filename cs u]>
                                      (cs_chunktable cs))
                                   (local_filesystem_root cs)]>
                          (chunkservers (master w))) w)
                end
            end
        end
    end.
Proof.
  unfold Client.write_chunk, Master.get_chunkloc, Master.get_chunkservers,
    Chunkserver.write.
  unfold bind, list_getitem, get_master, getitem, ret, raise, file_write,
    modify_master. simpl.
  destruct (chunkuuids !! i) as [u|]; simpl; [|done].
  destruct (chunktable (master w) !! u) as [loc|]; simpl; [|done].
  destruct (chunkservers (master w) !! loc) as [cs|]; simpl; [|done].
  by destruct (chunks !! i).
Qed.

Lemma write_chunk_consistent chunkuuids chunks i w :
  pool_consistent w → pool_consistent (Client.write_chunk chunkuuids chunks i w).2.
Proof.
  intros Hcons. rewrite write_chunk_cases.
  destruct (chunkuuids !! i) as [u|]; [|done].
  destruct (chunktable (master w) !! u) as [loc|] eqn:Hloc; [|done].
  destruct (chunkservers (master w) !! loc) as [cs|] eqn:Hcs; [|done].
  destruct (chunks !! i) as [c|]; [|done]. simpl.
  destruct (Hcons loc cs Hcs) as (Hlt & Hid & Hroot & Hlisted).
  intros loc' cs'. simpl. rewrite lookup_insert. case_decide as Hl.
  - intros [= <-]. subst loc'. simpl.
    repeat (split; [done|]). intros u' p'. rewrite lookup_insert.
    case_decide as Hu.
    + intros [= <-]. subst u'. split; [done|]. split; [done|].
      rewrite lookup_insert_eq. by eexists.
    + intros Hup. destruct (Hlisted u' p' Hup) as (? & -> & Hfile).
      split; [done|]. split; [done|].
      rewrite lookup_insert. by case_decide.
  - intros Hcs'. destruct (Hcons loc' cs' Hcs') as (? & ? & ? & Hlisted').
    repeat (split; [done|]). intros u' p' Hup.
    destruct (Hlisted' u' p' Hup) as (? & ? & Hfile).
    split; [done|]. split; [done|].
    rewrite lookup_insert. by case_decide.
Qed.

Lemma for_each_preserves {A} (P : World → Prop) (body : A → M unit) (l : list A) :
  (∀ x w, P w → P (body x w).2) →
  ∀ w, P w → P (for_each l body w).2.
Proof.
  intros Hbody. induction l as [|x l IH]; intros w HP; [done|].
  simpl. unfold bind. specialize (Hbody x w HP).
  destruct (body x w) as [[[]|e] w']; simpl in *; [by apply IH|done].
Qed.

Lemma write_chunks_consistent chunkuuids data w :
  pool_consistent w → pool_consistent (Client.write_chunks chunkuuids data w).2.
Proof.
  intros Hcons. unfold Client.write_chunks, get_master, range3.
  unfold bind at 1. unfold bind at 1.
  case_decide; [done|]. unfold ret at 1.
  apply for_each_preserves; [|done].
  intros j w'. apply write_chunk_consistent.
Qed.

Lemma after_alloc_consistent first filename l ct n w :
  Inv first w →
  (∀ u, ct !! u =
     if decide (uuid_clock w ≤ u < uuid_clock w + n)
     then Some ((chunkrobin (master w) + (u - uuid_clock w))
                  mod num_chunkservers (master w))
     else chunktable (master w) !! u) →
  pool_consistent w →
  pool_consistent (bind_file filename l (after_alloc ct n w)).
Proof.
  intros HI Hct. apply pool_consistent_ext; try done.
  intros u loc Hu. simpl. rewrite Hct.
  pose proof Hu as Hrange. rewrite (inv_chunktable _ _ HI) in Hrange.
  destruct (decide (first ≤ u < uuid_clock w)); [|done].
  by rewrite decide_False by lia.
Qed.

Lemma exec_consistent first c w :
  Inv first w → pool_consistent w → pool_consistent (exec c w).
Proof.
  intros HI Hcons.
  assert (num_chunkservers (master w) = 5) as HN by apply HI.
  assert (chunkrobin (master w) < 5) as Hr.
  { rewrite (inv_robin _ _ HI). by apply Nat.mod_upper_bound. }
  assert (∀ f, pool_consistent (delete_if_exists f w)) as Hdel.
  { intros f. unfold delete_if_exists.
    destruct (filetable (master w) !! f); [|done].
    by apply (pool_consistent_ext w). }
  assert (∀ f, pool_consistent (Master.delete f w).2) as Hmdel.
  { intros f. destruct (filetable (master w) !! f) as [l|] eqn:Hf.
    - rewrite (delete_spec _ _ _ Hf). by apply (pool_consistent_ext w).
    - by rewrite delete_missing. }
  destruct c as [f d|f d|f|f|f|f n|f n|f]; simpl.
  - destruct (write_spec first f d w HI)
      as (w' & -> & _ & _ & _ & _ & _ & wb & Halloc & Hstore).
    simpl. replace w' with (Client.write_chunks
      (seq (uuid_clock w) (ceil_div (length d) 10)) d wb).2 by by rewrite Hstore.
    apply write_chunks_consistent.
    pose proof (Inv_delete_if_exists first f w HI) as HIa.
    destruct (alloc_spec f (ceil_div (length d) 10) (delete_if_exists f w))
      as (ct & Halloc' & Hct).
    { rewrite (inv_servers _ _ HIa). lia. }
    { rewrite (inv_robin _ _ HIa), (inv_servers _ _ HIa).
      by apply Nat.mod_upper_bound. }
    assert (wb = bind_file f
                   (seq (uuid_clock (delete_if_exists f w)) (ceil_div (length d) 10))
                   (after_alloc ct (ceil_div (length d) 10) (delete_if_exists f w)))
      as -> by congruence.
    by apply (after_alloc_consistent first).
  - destruct (filetable (master w) !! f) as [l|] eqn:Hf.
    + destruct (write_append_spec first f l d w HI Hf)
        as (w' & -> & _ & _ & _ & _ & _ & wb & Halloc & Hstore).
      simpl. replace w' with (Client.write_chunks
        (seq (uuid_clock w) (ceil_div (length d) 10)) d wb).2 by by rewrite Hstore.
      apply write_chunks_consistent.
      destruct (alloc_append_spec f l (ceil_div (length d) 10) w)
        as (ct & Halloc' & Hct); [lia..|done|].
      assert (wb = bind_file f
                     (l ++ seq (uuid_clock w) (ceil_div (length d) 10))
                     (after_alloc ct (ceil_div (length d) 10) w))
        as -> by congruence.
      by apply (after_alloc_consistent first).
    + by rewrite write_append_missing.
  - by rewrite read_only_read.
  - done.
  - apply Hmdel.
  - destruct (alloc_spec f n w) as (ct & -> & Hct); [lia..|].
    by apply (after_alloc_consistent first).
  - destruct (filetable (master w) !! f) as [l|] eqn:Hf.
    + destruct (alloc_append_spec f l n w) as (ct & -> & Hct); [lia..|done|].
      by apply (after_alloc_consistent first).
    + by rewrite alloc_append_missing.
  - apply Hmdel.
Qed.

Lemma run_calls_consistent first cs : ∀ w,
  Inv first w → pool_consistent w → pool_consistent (run_calls cs w).
Proof.
  induction cs as [|c cs IH]; intros w HI Hcons; [done|].
  simpl. apply IH; [by apply exec_spec|by apply (exec_consistent first)].
Qed.

(** X12: in every reachable world the pool has a chunkserver exactly under
    the keys [0] to [4]; the one under key [loc] has [loc] as its own index
    and [/tmp/gfs/chunks/loc] as its directory; and its own chunk table lists
    an identifier only if the master has placed that identifier on [loc],
    under the name the chunkserver gives the chunk's file, and that file
    exists. *)
Theorem chunkservers_agree_with_master files first clock cs :
  let w := run_calls cs (init_world files first clock) in
  (∀ loc, is_Some (chunkservers (master w) !! loc) ↔ loc < 5) ∧
  ∀ loc server, chunkservers (master w) !! loc = Some server →
    cs_chunkloc server = loc ∧
    local_filesystem_root server = "/tmp/gfs/chunks/" +:+ pretty loc ∧
    ∀ u path, cs_chunktable server !! u = Some path →
      Master.get_chunkloc u w = (Ok loc, w) ∧
      path = Chunkserver.chunk_filename server u ∧
      is_Some (fs w !! path).
Proof.
  intros w.
  pose proof (run_calls_Inv files first clock cs) as HI. fold w in HI.
  pose proof (run_calls_consistent first cs _
                (Inv_init files first clock) (pool_consistent_init _ _ _)) as Hcons.
  fold w in Hcons. split.
  - intros loc. split.
    + intros [server Hserver]. destruct (Hcons loc server Hserver) as (Hlt & _).
      by rewrite (inv_servers _ _ HI) in Hlt.
    + intros Hlt. destruct (inv_pool _ _ HI loc Hlt) as [server ->]. by eexists.
  - intros loc server Hserver.
    destruct (Hcons loc server Hserver) as (_ & ? & ? & Hlisted).
    split; [done|]. split; [done|]. intros u path Hup.
    destruct (Hlisted u path Hup) as (Hloc & ? & ?).
    split; [|done]. unfold Master.get_chunkloc, get_master, bind.
    by apply getitem_ok.
Qed.

(** ** Calls that raise *)



(** ** [write_chunks] with a wrong number of identifiers *)

Lemma for_each_app {A} (l1 l2 : list A) (body : A → M unit) w :
  for_each (l1 ++ l2) body w = (for_each l1 body;; for_each l2 body) w.
Proof.
  revert w. induction l1 as [|x l1 IH]; intros w; [done|].
  simpl. unfold bind. destruct (body x w) as [[[]|e] w']; [|done].
  rewrite IH. done.
Qed.

(** X14: [write_chunks] stores slice [i] under identifier [i] for as long as
    there are both.  With no more identifiers than slices it returns (the
    slices beyond the last identifier have no identifier to go under, and no
    error is raised for them); with more identifiers than slices it raises
    [IndexError], after storing every slice.  Payloads of identifiers not in
    the list, the file table, the chunk table and the cursor are as
    before. *)
Theorem write_chunks_count_mismatch (w : World) (us : list nat) (data : list byte) :
  chunksize (master w) ≠ 0 →
  NoDup us →
  (∀ u, u ∈ us → is_Some (chunk_path (master w) u)) →
  let chunks := Client.split_chunks data (chunksize (master w)) in
  ∃ w',
    Client.write_chunks us data w =
      ((if decide (length us ≤ length chunks) then Ok tt else Raise IndexError), w') ∧
    (∀ j u c, us !! j = Some u → chunks !! j = Some c → stored w' u = Some c) ∧
    (∀ u, u ∉ us → stored w' u = stored w u) ∧
    filetable (master w') = filetable (master w) ∧
    chunktable (master w') = chunktable (master w) ∧
    chunkrobin (master w') = chunkrobin (master w).
Proof.
  intros HC Hnd Hpaths chunks.
  destruct (decide (length us ≤ length chunks)) as [Hle|Hgt].
  - destruct (write_chunks_spec us data w HC Hnd Hle Hpaths)
      as (files & pool & Hrun & _ & Hnew & Hold).
    by exists (after_store files pool w).
  - set (k := length chunks) in *.
    destruct (write_loop_spec us chunks k 0 w Hnd)
      as (files & pool & Hrun & Hroots & Hnew & Hold).
    { intros j Hj.
      destruct (lookup_lt_is_Some_2 us j ltac:(lia)) as [u Hu].
      destruct (lookup_lt_is_Some_2 chunks j ltac:(lia)) as [c Hc].
      destruct (Hpaths u) as [p Hp]; [by eapply list_elem_of_lookup_2|].
      by exists u, c, p. }
    set (w1 := after_store files pool w) in *.
    exists w1. split; [|split; [|split; [|done]]].
    + unfold Client.write_chunks, get_master, range3.
      unfold bind at 1. unfold bind at 1.
      rewrite decide_False by done. unfold ret at 1.
      fold chunks.
      replace (length us) with (k + S (length us - S k)) by lia.
      rewrite seq_app, for_each_app. rewrite (bind_ok _ _ _ _ _ Hrun).
      simpl. unfold bind. rewrite write_chunk_cases.
      destruct (lookup_lt_is_Some_2 us k ltac:(lia)) as [u Hu]. rewrite Hu.
      destruct (Hpaths u) as [p Hp]; [by eapply list_elem_of_lookup_2|].
      rewrite <-(chunk_path_after_store files pool w u Hroots) in Hp.
      fold w1 in Hp. unfold chunk_path in Hp.
      destruct (chunktable (master w1) !! u) as [loc|]; [|done].
      destruct (chunkservers (master w1) !! loc) as [cs|]; [|done].
      assert (chunks !! k = None) as Hk by by apply lookup_ge_None_2.
      unfold chunks, Client.split_chunks in Hk. by rewrite Hk.
    + intros j u c Hu Hc.
      destruct (Hpaths u) as [p Hp]; [by eapply list_elem_of_lookup_2|].
      unfold stored, w1. rewrite chunk_path_after_store, Hp by done. simpl.
      apply (Hnew j u c p); [|done..].
      apply lookup_lt_Some in Hc. lia.
    + intros u Hu. unfold stored, w1. rewrite chunk_path_after_store by done.
      destruct (chunk_path (master w) u) as [p|] eqn:Hp; [|done]. simpl.
      apply Hold. intros j u' _ Hu' Hp'.
      assert (u' = u) as -> by by eapply chunk_path_inj.
      apply Hu. by eapply list_elem_of_lookup_2.
Qed.

Lemma write_chunks_count_mismatch_witness :
  chunksize (master (exec (MAlloc "/a" 2) sample_world)) ≠ 0 ∧
  ∃ w', Client.write_chunks [0; 1] (sample_data "hello")
          (exec (MAlloc "/a" 2) sample_world) = (Raise IndexError, w').
Proof.
  assert (chunksize (master (exec (MAlloc "/a" 2) sample_world)) ≠ 0)
    as HC by (vm_compute; lia).
  split; [exact HC|].
  destruct (write_chunks_count_mismatch _ [0; 1] (sample_data "hello") HC)
    as (w' & Hrun & _).
  - exact (NoDup_seq 0 2).
  - intros u Hu. apply (elem_of_seq 0 2) in Hu.
    destruct u as [|[|u]]; [vm_compute; by eexists..|lia].
  - exists w'. exact Hrun.
Defined.

(** ** Balance of the placement *)

(** The number of [k < n] with [k mod 5 = s]. *)
Lemma count_residue s n :
  s < 5 →
  length (filter (λ k, k mod 5 = s) (seq 0 n))
  = n / 5 + (if decide (s < n mod 5) then 1 else 0).
Proof.
  intros Hs. induction n as [|n IH].
  - destruct (decide (s < 0 mod 5)) as [Hlt|_]; [|done].
    rewrite Nat.Div0.mod_0_l in Hlt. lia.
  - rewrite seq_S, filter_app, length_app, IH. simpl.
    pose proof (Nat.div_mod n 5 ltac:(lia)) as Hdm.
    pose proof (Nat.mod_upper_bound n 5 ltac:(lia)) as Hub.
    set (q := n / 5) in *. set (r := n mod 5) in *.
    assert (S n / 5 = (if decide (r = 4) then S q else q) ∧
            S n mod 5 = (if decide (r = 4) then 0 else S r)) as [-> ->].
    { destruct (decide (r = 4)).
      - split; symmetry.
        + apply (Nat.div_unique _ _ _ 0); lia.
        + apply (Nat.mod_unique _ _ (S q)); lia.
      - split; symmetry.
        + apply (Nat.div_unique _ _ _ (S r)); lia.
        + apply (Nat.mod_unique _ _ q); lia. }
    rewrite filter_cons, filter_nil. fold r.
    repeat case_decide; simpl; lia.
Qed.

Lemma length_filter_fmap {A B} (f : A → B) (P : B → Prop)
    `{!∀ y, Decision (P y)} (l : list A) :
  length (filter P (f <$> l)) = length (filter (λ x, P (f x)) l).
Proof.
  induction l as [|x l IH]; [done|].
  rewrite fmap_cons, !filter_cons.
  destruct (decide (P (f x))); simpl; by rewrite IH.
Qed.

Lemma chunktable_entries first w :
  Inv first w →
  map_to_list (chunktable (master w))
  ≡ₚ (λ k, (first + k, k mod 5)) <$> seq 0 (uuid_clock w - first).
Proof.
  intros HI. apply NoDup_Permutation.
  - apply NoDup_map_to_list.
  - apply NoDup_fmap_2_strong; [|apply NoDup_seq].
    intros k k' _ _ [= Hk _]. lia.
  - intros [u loc]. rewrite elem_of_map_to_list, (inv_chunktable _ _ HI).
    rewrite list_elem_of_fmap. split.
    + case_decide as Hr; [|done]. intros [= <-].
      exists (u - first). split; [f_equal; lia|]. apply elem_of_seq. lia.
    + intros (k & [= -> ->] & Hk). apply elem_of_seq in Hk.
      pose proof (inv_first _ _ HI).
      rewrite decide_True by lia. do 2 f_equal. lia.
Qed.

Lemma load_spec first w s :
  Inv first w → s < 5 →
  load (master w) s
  = (uuid_clock w - first) / 5
    + (if decide (s < (uuid_clock w - first) mod 5) then 1 else 0).
Proof.
  intros HI Hs. unfold load.
  rewrite (chunktable_entries first w HI).
  rewrite (length_filter_fmap (λ k, (first + k, k mod 5)) (λ entry, entry.2 = s)).
  simpl. by apply count_residue.
Qed.

(** X15: in every reachable world, when [n] chunks have been allocated since
    the master was made, server [s] of the pool holds the placements of
    [n / 5] chunks, and one more if [s < n mod 5]: the loads of two servers
    never differ by more than one chunk, and together they are the [n]
    chunks allocated. *)
Theorem placement_is_balanced files first clock cs :
  let w0 := init_world files first clock in
  let w := run_calls cs w0 in
  let n := allocated_by cs w0 in
  (∀ s, s < 5 →
     load (master w) s = n / 5 + (if decide (s < n mod 5) then 1 else 0)) ∧
  (∀ s t, s < 5 → t < 5 → load (master w) s ≤ load (master w) t + 1) ∧
  load (master w) 0 + load (master w) 1 + load (master w) 2
    + load (master w) 3 + load (master w) 4 = n ∧
  size (chunktable (master w)) = n.
Proof.
  intros w0 w n.
  pose proof (run_calls_Inv files first clock cs) as HI. fold w0 w in HI.
  pose proof (run_calls_clock first cs w0 (Inv_init _ _ _)) as Hclock.
  fold w in Hclock. simpl in Hclock.
  assert (uuid_clock w - first = n) as Hn by (unfold n; lia).
  assert (∀ s, s < 5 →
    load (master w) s = n / 5 + (if decide (s < n mod 5) then 1 else 0)) as Hload.
  { intros s Hs. by rewrite (load_spec first), Hn. }
  split; [done|]. split; [|split].
  - intros s t Hs Ht. rewrite !Hload by done. repeat case_decide; lia.
  - rewrite !Hload by lia.
    pose proof (Nat.div_mod n 5 ltac:(lia)) as Hdm.
    pose proof (Nat.mod_upper_bound n 5 ltac:(lia)) as Hub.
    repeat case_decide; lia.
  - rewrite <-length_map_to_list, (chunktable_entries first w HI).
    by rewrite length_fmap, length_seq.
Qed.
